(** * Chord detection engine of the virtual piano (utils/chordDetector)

    Shallow embedding of the chord detector: pitch utilities, the
    permutation generator (Heap's algorithm on a shared buffer), the
    canonical stacking resolver, the chord template database built at
    module load, and the public [detectChord] entry point.

    Conventions of the embedding
    - JavaScript numbers that occur here are small integers: they are [Z].
      [%] is JavaScript's remainder, whose sign follows the dividend: [Z.rem].
    - Strings are [string]; every string the detector inspects is ASCII.
    - A JavaScript array is a [list]; reading an index that is out of range
      gives [undefined], modelled by [None].
    - A run-time [TypeError] is the [Throw] outcome of [js_result].
    - [String.prototype.localeCompare] is applied to comma-joined decimal
      numbers only; on that alphabet (digits and the comma) the default
      collation agrees with the code-unit order, so it is modelled by the
      lexicographic comparison [String.compare].
    - [Array.prototype.sort] is stable; it is modelled by a stable insertion
      sort driven by the comparator. *)

From Stdlib Require Import ZArith String Ascii List Permutation Lia Bool.
From Stdlib Require Import DecimalString DecimalPos DecimalZ Sorted Factorial.
From stdpp Require Import base tactics list numbers strings gmap.

Import ListNotations.
Local Open Scope string_scope.
Local Open Scope list_scope.
Local Open Scope Z_scope.

(** ** Outcomes of JavaScript computations that may throw *)

Inductive js_result (A : Type) : Type :=
| Ok (a : A)
| Throw.
Arguments Ok {A} a.
Arguments Throw {A}.

Definition js_bind {A B} (m : js_result A) (k : A -> js_result B) : js_result B :=
  match m with
  | Ok a => k a
  | Throw => Throw
  end.

Notation "'do' x <- m ; k" := (js_bind m (fun x => k))
  (at level 10, x name, m at level 100, k at level 200).

(** ** Array and string helpers of the JavaScript runtime *)

Section ArrayHelpers.
Context {A : Type}.

(** [arr[i]] for an integer index: [None] stands for [undefined]. *)
Definition js_index (arr : list A) (i : Z) : option A :=
  if i <? 0 then None else arr !! Z.to_nat i.

(** [Array.prototype.indexOf]: first index holding [x], or [-1]. *)
Fixpoint indexOf_from (eqb : A -> A -> bool) (x : A) (arr : list A) (i : Z) : Z :=
  match arr with
  | [] => -1
  | y :: rest => if eqb y x then i else indexOf_from eqb x rest (i + 1)
  end.

Definition indexOf (eqb : A -> A -> bool) (x : A) (arr : list A) : Z :=
  indexOf_from eqb x arr 0.

(** Stable insertion sort driven by a JavaScript comparator
    ([cmp a b <= 0] keeps [a] before [b]). *)
Fixpoint sort_insert (cmp : A -> A -> Z) (x : A) (l : list A) : list A :=
  match l with
  | [] => [x]
  | y :: rest => if cmp x y <=? 0 then x :: y :: rest
                 else y :: sort_insert cmp x rest
  end.

Fixpoint array_sort (cmp : A -> A -> Z) (l : list A) : list A :=
  match l with
  | [] => []
  | x :: rest => sort_insert cmp x (array_sort cmp rest)
  end.

(** [[a[i], a[j]] = [a[j], a[i]]] with both indices inside the array.
    (Outside the array JavaScript would store [undefined] and grow the
    array; [permutations] never gets there, see [permutations_spec].) *)
Definition swap (a : list A) (i j : nat) : list A :=
  match a !! i, a !! j with
  | Some x, Some y => <[j := x]> (<[i := y]> a)
  | _, _ => a
  end.
End ArrayHelpers.

(** [Array.prototype.join] on strings. *)
Fixpoint join (sep : string) (l : list string) : string :=
  match l with
  | [] => ""
  | [s] => s
  | s :: rest => (s ++ sep ++ join sep rest)%string
  end.

(** Decimal rendering of an integer, as [Number.prototype.toString]. *)
Definition string_of_Z (z : Z) : string := NilZero.string_of_int (Z.to_int z).

(** [[...new Set(arr)]]: distinct values in order of first occurrence. *)
Definition set_values (l : list Z) : list Z :=
  fold_left (fun seen x => if existsb (Z.eqb x) seen then seen else seen ++ [x]) l [].

(** [s.localeCompare(t)] on the strings compared here. *)
Definition localeCompare (s t : string) : Z :=
  match String.compare s t with
  | Lt => -1
  | Eq => 0
  | Gt => 1
  end.

(** ** Music theory helpers *)

Definition SHARP_NOTES : list string :=
  ["C"; "C#"; "D"; "D#"; "E"; "F"; "F#"; "G"; "G#"; "A"; "A#"; "B"].
Definition FLAT_NOTES : list string :=
  ["C"; "Db"; "D"; "Eb"; "E"; "F"; "Gb"; "G"; "Ab"; "A"; "Bb"; "B"].

Definition is_note_letter (c : ascii) : bool :=
  let n := nat_of_ascii c in ((65 <=? n) && (n <=? 71))%nat.

Definition is_digit (c : ascii) : bool :=
  let n := nat_of_ascii c in ((48 <=? n) && (n <=? 57))%nat.

Definition is_sharp (c : ascii) : bool := Ascii.eqb c "#"%char.

(** [note.match(/^([A-G]#?)([0-9])$/)]: the two captured groups. *)
Definition note_match (note : string) : option (string * string) :=
  match note with
  | String l (String d EmptyString) =>
      if is_note_letter l && is_digit d
      then Some (String l EmptyString, String d EmptyString) else None
  | String l (String s (String d EmptyString)) =>
      if is_note_letter l && is_sharp s && is_digit d
      then Some (String l (String s EmptyString), String d EmptyString) else None
  | _ => None
  end.

(** [parseInt(s, 10)] on a string of decimal digits. *)
Definition digit_value (c : ascii) : Z := Z.of_nat (nat_of_ascii c) - 48.

Fixpoint parseInt_from (acc : Z) (s : string) : Z :=
  match s with
  | EmptyString => acc
  | String c rest => parseInt_from (10 * acc + digit_value c) rest
  end.

Definition parseInt10 (s : string) : Z := parseInt_from 0 s.

Definition noteToMidi (note : string) : Z :=
  match note_match note with
  | None => -1
  | Some (name, octaveStr) =>
      let octave := parseInt10 octaveStr in
      let noteIndex := indexOf String.eqb name SHARP_NOTES in
      12 * (octave + 1) + noteIndex
  end.

Definition midiToNoteName (midi : Z) (useSharps : bool) : string :=
  let noteIndex := Z.rem (Z.rem midi 12 + 12) 12 in
  nth (Z.to_nat noteIndex) (if useSharps then SHARP_NOTES else FLAT_NOTES) "undefined".

(** [while (diff > 21) diff -= 12], with the number of iterations as fuel. *)
Fixpoint fold_down (fuel : nat) (diff : Z) : Z :=
  match fuel with
  | O => diff
  | S fuel' => if 21 <? diff then fold_down fuel' (diff - 12) else diff
  end.

Definition getIntervalName (semitones : Z) : option string :=
  let diff := Z.abs semitones in
  let diff := fold_down (Z.to_nat diff) diff in
  match diff with
  | 0 => Some "Unison"
  | 1 => Some "Minor 2nd"
  | 2 => Some "Major 2nd"
  | 3 => Some "Minor 3rd"
  | 4 => Some "Major 3rd"
  | 5 => Some "Perfect 4th"
  | 6 => Some "Tritone"
  | 7 => Some "Perfect 5th"
  | 8 => Some "Minor 6th (or #5)"
  | 9 => Some "Major 6th"
  | 10 => Some "Minor 7th"
  | 11 => Some "Major 7th"
  | 12 => Some "Octave"
  | 13 => Some "Flat 9th"
  | 14 => Some "9th"
  | 15 => Some "Minor 10th (or #9)"
  | 16 => Some "Major 10th"
  | 17 => Some "11th"
  | 18 => Some "Augmented 11th"
  | 19 => Some "Perfect 12th"
  | 20 => Some "Flat 13th"
  | 21 => Some "13th"
  | _ => None
  end.

(** ** Permutation and stacking logic *)

Section Permutations.
Context {A : Type}.

(** One pass of the [for] loop of [permutations]: the state is the list of
    orderings yielded so far together with the shared buffer. *)
Definition heap_step (rec : list A -> list (list A) * list A) (n : nat)
    (st : list (list A) * list A) (i : nat) : list (list A) * list A :=
  let '(ys, a) := st in
  let '(ys', a') := rec a in
  let j := if Nat.odd n then 0%nat else i in
  (ys ++ ys', swap a' (n - 1) j).

(** [permutations(array, n)]: the orderings yielded, in order, and the
    buffer as the generator leaves it.  Each yield is [array.slice()],
    a fresh copy, so the yielded lists are values. *)
Fixpoint permutations (n : nat) (array : list A) : list (list A) * list A :=
  match n with
  | O => ([array], array)
  | S m =>
      match m with
      | O => ([array], array)
      | S _ => fold_left (heap_step (permutations m) n) (seq 0 n) ([], array)
      end
  end.
End Permutations.

(** [while (interval < 0) interval += 12], with enough fuel to leave the loop. *)
Fixpoint lift_interval (fuel : nat) (interval : Z) : Z :=
  match fuel with
  | O => interval
  | S fuel' => if interval <? 0 then lift_interval fuel' (interval + 12) else interval
  end.

Definition normalize_interval (interval : Z) : Z :=
  lift_interval (Z.to_nat (- interval)) interval.

Fixpoint intervals (chord : list Z) : list Z :=
  match chord with
  | a :: (b :: _) as rest => normalize_interval (b - a) :: intervals rest
  | _ => []
  end.

Definition getIntervalPattern (chord : list Z) : list Z :=
  if (length chord <? 2)%nat then [0] else intervals chord.

(** [pattern.reduce((sum, val) => sum + val, 0)] *)
Definition energy_of (pattern : list Z) : Z := fold_left Z.add pattern 0.

(** [pattern.join(',')] *)
Definition patternStr_of (pattern : list Z) : string :=
  join "," (map string_of_Z pattern).

Record Candidate : Type := { chord : list Z; patternStr : string }.

Definition stack_step (st : Z * list Candidate) (p : list Z) : Z * list Candidate :=
  let '(minEnergy, minEnergyChords) := st in
  let pattern := getIntervalPattern p in
  let energy := energy_of pattern in
  if (energy <? minEnergy) || (minEnergy =? -1) then
    (energy, [{| chord := p; patternStr := patternStr_of pattern |}])
  else if energy =? minEnergy then
    (minEnergy, minEnergyChords ++ [{| chord := p; patternStr := patternStr_of pattern |}])
  else (minEnergy, minEnergyChords).

Definition getAsStackedChord (noteClasses : list Z) : js_result (list Z) :=
  if (length noteClasses <=? 1)%nat then Ok noteClasses
  else
    let '(_, minEnergyChords) :=
      fold_left stack_step (fst (permutations (length noteClasses) noteClasses)) (-1, []) in
    let sorted :=
      array_sort (fun a b => localeCompare (patternStr a) (patternStr b)) minEnergyChords in
    match sorted with
    | [] => Throw
    | c :: _ => Ok (chord c)
    end.

(** ** Chord database *)

Record ChordFormula : Type :=
  { name : string; pattern : string; rootIndex : Z }.

(** [String.prototype.toUpperCase] on ASCII text. *)
Definition upper_char (c : ascii) : ascii :=
  let n := nat_of_ascii c in
  if ((97 <=? n) && (n <=? 122))%nat then ascii_of_nat (n - 32) else c.

Fixpoint toUpperCase (s : string) : string :=
  match s with
  | EmptyString => EmptyString
  | String c rest => String (upper_char c) (toUpperCase rest)
  end.

(** [s.replace(pat, rep)] with string arguments: the first occurrence only. *)
Fixpoint replace (pat rep s : string) : string :=
  if String.prefix pat s
  then (rep ++ substring (String.length pat) (String.length s - String.length pat) s)%string
  else match s with
       | EmptyString => EmptyString
       | String c rest => String c (replace pat rep rest)
       end.

(** [s.split(',')] *)
Fixpoint split_from (sep : ascii) (cur : string) (s : string) : list string :=
  match s with
  | EmptyString => [cur]
  | String c rest =>
      if Ascii.eqb c sep then cur :: split_from sep EmptyString rest
      else split_from sep (cur ++ String c EmptyString)%string rest
  end.

Definition split (sep : ascii) (s : string) : list string := split_from sep EmptyString s.

(** The chain of enharmonic replacements of [defineChord]. *)
Definition normalize_name (n : string) : string :=
  replace "BB" "A#" (replace "AB" "G#" (replace "GB" "F#" (replace "EB" "D#"
  (replace "DB" "C#" (replace "CB" "B" (replace "FB" "E" (replace "E#" "F"
  (replace "B#" "C" (toUpperCase n))))))))).

(** [defineChord(name, noteStr)], threading the module-level array
    [CHORD_FORMULAS] as state. *)
Definition defineChord (name noteStr : string) (formulas : list ChordFormula)
    : js_result (list ChordFormula) :=
  let notes :=
    map (fun n => indexOf String.eqb (normalize_name n) SHARP_NOTES) (split "," noteStr) in
  do stacked <- getAsStackedChord notes;
  let rootNote := js_index notes 0 in
  let rootIndex :=
    match rootNote with
    | Some r => indexOf Z.eqb r stacked
    | None => -1
    end in
  let pattern := patternStr_of (getIntervalPattern stacked) in
  Ok (formulas ++ [{| name := name; pattern := pattern; rootIndex := rootIndex |}]).

(** The top-level [defineChord] calls, in source order. *)
Definition top_level_definitions : list (string * string) :=
  [ ("", "c,e,g"); ("5", "c,g"); ("6(no3)", "c,g,a"); ("Maj7", "c,e,g,b");
    ("Maj7(#11)", "c,e,f#,b"); ("add9", "c,e,g,d"); ("Maj7(9)", "c,d,e,b");
    ("6(9)", "c,d,e,a"); ("+", "c,e,g#"); ("m", "c,eb,g"); ("madd9", "c,eb,g,d");
    ("m7", "c,eb,g,bb"); ("m7(9)", "c,d,eb,bb"); ("mMaj7", "c,eb,g,b");
    ("mMaj7(9)", "c,d,eb,b"); ("dim", "c,eb,f#"); ("dim7", "c,eb,f#,a");
    ("7", "c,e,g,bb"); ("7(no5)", "c,e,bb"); ("7sus4", "c,f,g,bb");
    ("7(b5)", "c,e,f#,bb"); ("7(9)", "c,d,e,bb"); ("7(13)", "c,e,a,bb");
    ("7(b9)", "c,c#,e,bb"); ("+7", "c,e,g#,bb"); ("7(#9)", "c,eb,e,bb");
    ("sus4", "c,f,g"); ("6add9", "c,e,g,a,d"); ("Maj9", "c,e,g,b,d");
    ("9", "c,e,g,bb,d"); ("13", "c,e,g,bb,d,a"); ("13", "c,e,g,bb,d,f,a");
    ("13", "c,e,bb,d,a"); ("m6", "c,eb,g,a"); ("m6add9", "c,eb,g,a,d");
    ("m6/9", "c,eb,a,d"); ("m7add13", "c,eb,g,a,bb"); ("m9", "c,eb,g,bb,d");
    ("m11", "c,eb,g,bb,d,f"); ("m11", "c,eb,bb,d,f"); ("m13", "c,eb,g,bb,d,f,a");
    ("m9/Maj7", "c,eb,g,b,d"); ("m9(b5)", "c,eb,gb,bb,d");
    ("m11(b5)", "c,eb,gb,bb,d,f"); ("Maj7(#5)", "c,e,g#,b");
    ("Maj7(#11)", "c,e,g,b,f#"); ("Maj9(#11)", "c,e,g,b,d,f#");
    ("7(b9)", "c,e,g,bb,db"); ("7(#9)", "c,e,g,bb,d#");
    ("7(#5)(#9)", "c,e,g#,bb,d#"); ("7(#11)", "c,e,g,bb,f#");
    ("9(#11)", "c,e,g,bb,d,f#"); ("7(b9)(#11)", "c,e,g,bb,db,f#");
    ("13b5", "c,e,gb,bb,d,a"); ("13b5", "c,e,gb,bb,d,f,a");
    ("13b9", "c,e,g,bb,db,a"); ("13b9", "c,e,g,bb,db,f,a");
    ("13#11", "c,e,g,bb,d,f#,a"); ("7(no3)", "c,g,bb"); ("Maj7(no5)", "c,e,b") ].

(** The calls inside [if (CHORD_FORMULAS.length === 0) { ... }]. *)
Definition supplementary_definitions : list (string * string) :=
  [ ("m(maj9)", "c,d#,g,b,d"); ("m7(b9)", "c,d#,g,a#,c#"); ("Maj7(#5)", "c,e,g#,b") ].

Definition define_all (defs : list (string * string)) (formulas : list ChordFormula)
    : js_result (list ChordFormula) :=
  fold_left (fun acc def => do db <- acc; defineChord (fst def) (snd def) db)
            defs (Ok formulas).

(** Whether the guarded block at the end of the module runs. *)
Definition supplementary_guard (formulas : list ChordFormula) : bool :=
  (length formulas =? 0)%nat.

(** Module initialisation: the state of [CHORD_FORMULAS] once the module is
    loaded, starting from the empty array. *)
Definition module_init : js_result (list ChordFormula) :=
  do db <- define_all top_level_definitions [];
  if supplementary_guard db then define_all supplementary_definitions db else Ok db.

Definition CHORD_FORMULAS :=
  Eval vm_compute in match module_init with Ok db => db | Throw => [] end.

(** ** Main detection function *)

Record DetectOptions : Type := { useFlats : option bool }.

(** [!(opts?.useFlats)] *)
Definition useSharps_of (opts : option DetectOptions) : bool :=
  match opts with
  | Some {| useFlats := Some true |} => false
  | _ => true
  end.

(** [midiToNoteName(rootNote, useSharps) + ...] where [rootNote] may be
    [undefined]: the arithmetic then gives [NaN], the table lookup
    [undefined], and the concatenation the text "undefined". *)
Definition rootName_of (rootNote : option Z) (useSharps : bool) : string :=
  match rootNote with
  | Some r => midiToNoteName r useSharps
  | None => "undefined"
  end.

Definition same_note (rootNote : option Z) (bassNoteClass : Z) : bool :=
  match rootNote with
  | Some r => r =? bassNoteClass
  | None => false
  end.

(** Body of the [if (formula.pattern === pattern)] branch. *)
Definition chordNameFor (formula : ChordFormula) (stackedChord : list Z)
    (bassNote : Z) (useSharps : bool) : string :=
  let rootNote := js_index stackedChord (rootIndex formula) in
  let bassNoteClass := Z.rem bassNote 12 in
  let rootNote :=
    if String.eqb (name formula) "dim7" || String.eqb (name formula) "+"
    then Some bassNoteClass else rootNote in
  let chordName := (rootName_of rootNote useSharps ++ name formula)%string in
  if negb (same_note rootNote bassNoteClass)
  then (chordName ++ "/" ++ midiToNoteName bassNoteClass useSharps)%string
  else chordName.

(** The last line of [detectChord]; an [undefined] entry joins as "". *)
Definition fallbackName (noteClasses : list Z) (useSharps : bool) : string :=
  let table := if useSharps then SHARP_NOTES else FLAT_NOTES in
  ("(" ++ join ", " (map (fun n => default "" (js_index table n)) noteClasses) ++ ")")%string.

Section Detection.
(** The resolver and the database [detectChord] reads. *)
Variable resolver : list Z -> js_result (list Z).
Variable formulas : list ChordFormula.

(** The body of [detectChord].  [midiNotes] has as many entries as [notes],
    so its empty case repeats the first test; the one-, two- and
    many-note cases are the tests on [midiNotes.length]. *)
Definition detectChordWith (notes : list string) (opts : option DetectOptions)
    : js_result (option string) :=
  if (length notes =? 0)%nat then Ok None
  else
    let midiNotes := array_sort (fun a b => a - b) (map noteToMidi notes) in
    let useSharps := useSharps_of opts in
    match midiNotes with
    | [] => Ok None
    | [bassNote] => Ok (Some (midiToNoteName bassNote useSharps))
    | [low; high] =>
        let name := default "Interval" (getIntervalName (high - low)) in
        Ok (Some (name ++ " (" ++ midiToNoteName low useSharps ++ ", "
                       ++ midiToNoteName high useSharps ++ ")")%string)
    | bassNote :: _ =>
        let noteClasses := set_values (map (fun n => Z.rem n 12) midiNotes) in
        if (9 <=? length noteClasses)%nat
        then Ok (Some (midiToNoteName bassNote useSharps ++ " Note Soup")%string)
        else
          do stackedChord <- resolver noteClasses;
          let patternKey := patternStr_of (getIntervalPattern stackedChord) in
          match find (fun formula => String.eqb (pattern formula) patternKey) formulas with
          | Some formula => Ok (Some (chordNameFor formula stackedChord bassNote useSharps))
          | None => Ok (Some (fallbackName noteClasses useSharps))
          end
    end.
End Detection.

Definition detectChord (notes : list string) (opts : option DetectOptions)
    : js_result (option string) :=
  detectChordWith getAsStackedChord CHORD_FORMULAS notes opts.


(** * Note handling of the keyboard hook (usePiano)

    The hook turns key presses, mouse clicks and MIDI messages into the set
    of sounding notes that [detectChord] is applied to.  Audio output is
    not part of the embedding; what is kept is the bookkeeping: the React
    state [activeNotes] and the three references that implement the sustain
    pedal.  State updaters queued with [setActiveNotes] are applied in the
    order they were queued, so the state is threaded through the handlers. *)

Definition NOTE_NAMES : list string :=
  ["C"; "C#"; "D"; "D#"; "E"; "F"; "F#"; "G"; "G#"; "A"; "A#"; "B"].

(** The pattern of [nameToMidi] is [/^([A-G]#?)(\d)$/], the one of
    [noteToMidi] with the digit class written differently. *)
Definition nameToMidi (note : string) : Z :=
  match note_match note with
  | None => -1
  | Some (name, m2) =>
      let oct := parseInt10 m2 in
      let idx := indexOf String.eqb name NOTE_NAMES in
      12 * (oct + 1) + idx
  end.

(** [Math.floor(midi / 12)] is the floor division of [Z]. *)
Definition midiToName (midi : Z) : string :=
  let pc := Z.rem (Z.rem midi 12 + 12) 12 in
  let oct := midi / 12 - 1 in
  (nth (Z.to_nat pc) NOTE_NAMES "undefined" ++ string_of_Z oct)%string.

Definition transposeNote (note : string) (semis : Z) : string :=
  let m := nameToMidi note in
  midiToName (m + semis).

(** ** Velocity steps *)

Definition VELOCITY_STEPS : list Z := [1; 20; 40; 60; 80; 100; 127].

Section FindIndex.
Context {A : Type}.

(** [Array.prototype.findIndex] *)
Fixpoint findIndex_from (p : A -> bool) (arr : list A) (i : Z) : Z :=
  match arr with
  | [] => -1
  | y :: rest => if p y then i else findIndex_from p rest (i + 1)
  end.

Definition findIndex (p : A -> bool) (arr : list A) : Z := findIndex_from p arr 0.
End FindIndex.

(** The updater of the velocity on [KeyC]. *)
Definition velocityStepDown (v : Z) : option Z :=
  let idx := findIndex (fun s => s =? v) VELOCITY_STEPS in
  if 0 <? idx then js_index VELOCITY_STEPS (idx - 1) else js_index VELOCITY_STEPS 0.

(** The updater of the velocity on [KeyV]. *)
Definition velocityStepUp (v : Z) : option Z :=
  let idx := findIndex (fun s => s =? v) VELOCITY_STEPS in
  if (0 <=? idx) && (idx <? Z.of_nat (length VELOCITY_STEPS) - 1)
  then js_index VELOCITY_STEPS (idx + 1)
  else js_index VELOCITY_STEPS (Z.of_nat (length VELOCITY_STEPS) - 1).

(** The velocity restored from storage: the stored number is clamped to
    [[1,127]] and snapped to the nearest step by a [reduce] that starts
    from the first step. *)
Definition snapVelocity (num : Z) : option Z :=
  let clamped := Z.max 1 (Z.min 127 num) in
  match js_index VELOCITY_STEPS 0 with
  | None => None
  | Some first =>
      Some (fold_left (fun prev cur =>
                         if Z.abs (cur - clamped) <? Z.abs (prev - clamped)
                         then cur else prev)
                      VELOCITY_STEPS first)
  end.

(** ** Sounding notes and the sustain pedal *)

Record KeyboardState : Type :=
  { activeNotes : gset string;                (* React state *)
    sustainedNotes : gset string;             (* sustainedNotesRef *)
    currentlyHeldEffective : gset string;     (* currentlyHeldEffectiveRef *)
    sustainDown : bool }.                     (* sustainDownRef *)

Definition initialKeyboardState : KeyboardState :=
  {| activeNotes := ∅; sustainedNotes := ∅; currentlyHeldEffective := ∅;
     sustainDown := false |}.

Definition releaseEffective (effective : string) (st : KeyboardState) : KeyboardState :=
  {| activeNotes := activeNotes st ∖ {[ effective ]};
     sustainedNotes := sustainedNotes st;
     currentlyHeldEffective := currentlyHeldEffective st;
     sustainDown := sustainDown st |}.

(** [transpose] is the value of the React state the callback closed over and
    [samplerLoaded] tells whether [samplerRef.current] is set; the velocity
    only shapes the sound. *)
Definition internalPlay (transpose : Z) (samplerLoaded : bool) (note : string)
    (applyTranspose : bool) (st : KeyboardState) : KeyboardState :=
  let effective := if applyTranspose then transposeNote note transpose else note in
  if negb samplerLoaded then st
  else
    {| activeNotes := activeNotes st ∪ {[ effective ]};
       sustainedNotes := sustainedNotes st;
       currentlyHeldEffective := currentlyHeldEffective st ∪ {[ effective ]};
       sustainDown := sustainDown st |}.

Definition internalStop (transpose : Z) (note : string) (applyTranspose : bool)
    (st : KeyboardState) : KeyboardState :=
  let effective := if applyTranspose then transposeNote note transpose else note in
  let st :=
    {| activeNotes := activeNotes st;
       sustainedNotes := sustainedNotes st;
       currentlyHeldEffective := currentlyHeldEffective st ∖ {[ effective ]};
       sustainDown := sustainDown st |} in
  if sustainDown st then
    {| activeNotes := activeNotes st;
       sustainedNotes := sustainedNotes st ∪ {[ effective ]};
       currentlyHeldEffective := currentlyHeldEffective st;
       sustainDown := sustainDown st |}
  else if bool_decide (effective ∈ sustainedNotes st) then st
  else releaseEffective effective st.

(** The sustain branch of the key-down handler and of the MIDI handler
    (controller 64 with a value of 64 or more). *)
Definition sustainPedalDown (st : KeyboardState) : KeyboardState :=
  {| activeNotes := activeNotes st;
     sustainedNotes := sustainedNotes st ∪ currentlyHeldEffective st;
     currentlyHeldEffective := currentlyHeldEffective st;
     sustainDown := true |}.

(** The sustain branch of the key-up handler and of the MIDI handler
    (controller 64 with a value below 64): the sustained notes that are not
    held are released one by one, then the sustain set is cleared. *)
Definition sustainPedalUp (st : KeyboardState) : KeyboardState :=
  let toRelease := sustainedNotes st ∖ currentlyHeldEffective st in
  {| activeNotes := activeNotes st ∖ toRelease;
     sustainedNotes := ∅;
     currentlyHeldEffective := currentlyHeldEffective st;
     sustainDown := false |}.

Inductive KeyboardEvent : Type :=
| PlayNote (transpose : Z) (samplerLoaded : bool) (note : string) (applyTranspose : bool)
| StopNote (transpose : Z) (note : string) (applyTranspose : bool)
| PedalDown
| PedalUp.

Definition handleEvent (st : KeyboardState) (ev : KeyboardEvent) : KeyboardState :=
  match ev with
  | PlayNote transpose samplerLoaded note applyTranspose =>
      internalPlay transpose samplerLoaded note applyTranspose st
  | StopNote transpose note applyTranspose => internalStop transpose note applyTranspose st
  | PedalDown => sustainPedalDown st
  | PedalUp => sustainPedalUp st
  end.

Definition handleEvents (events : list KeyboardEvent) : KeyboardState :=
  fold_left handleEvent events initialKeyboardState.

(** * Vocabulary of the statements *)

Section HeapVocabulary.
Context {A : Type}.

(** Rotation of a block to the right by one position. *)
Definition rotr (l : list A) : list A :=
  match rev l with
  | [] => []
  | x :: r => x :: rev r
  end.

(** The first [n] cells of the buffer once [permutations(array, n)] is
    exhausted: unchanged for odd [n], rotated by one for even [n]. *)
Definition heap_buffer (n : nat) (pre : list A) : list A :=
  if Nat.even n then rotr pre else pre.

(** [Y] holds exactly the orderings of the block [B] that end in one of
    the elements of [R]. *)
Definition yields_ok (B R : list A) (Y : list (list A)) : Prop :=
  forall q, In q Y <-> Permutation B q /\ exists q' z, q = q' ++ [z] /\ In z R.

(** What the generator does with its first [n] cells, the rest of the
    buffer being left alone. *)
Definition heap_ok (n : nat) : Prop :=
  forall pre suf, length pre = n ->
  exists Y,
    permutations n (pre ++ suf) = (map (fun q => q ++ suf) Y, heap_buffer n pre ++ suf)
    /\ forall q, In q Y <-> Permutation pre q.
End HeapVocabulary.
Arguments heap_ok A n : clear implicits.

(** A pitch class is an integer of [[0,11]]. *)
Definition is_pitch_class (pc : Z) : Prop := 0 <= pc <= 11.

(** The energy and the sort key of an ordering, as [getAsStackedChord]
    computes them. *)
Definition energy (chord : list Z) : Z := energy_of (getIntervalPattern chord).
Definition patternKey (chord : list Z) : string := patternStr_of (getIntervalPattern chord).

Definition candidate_of (p : list Z) : Candidate :=
  {| chord := p; patternStr := patternKey p |}.

(** State of the search loop once the orderings [seen] have been visited. *)
Definition stack_inv (seen : list (list Z)) (st : Z * list Candidate) : Prop :=
  (seen = [] -> st = (-1, [])) /\
  (seen <> [] ->
   0 <= fst st /\ snd st <> [] /\
   (forall c, In c (snd st) ->
      In (chord c) seen /\ energy (chord c) = fst st /\ patternStr c = patternKey (chord c)) /\
   (forall p, In p seen ->
      fst st <= energy p /\ (energy p = fst st -> In (candidate_of p) (snd st)))).

(** A letter A-G, an optional sharp marker, and one unsigned octave digit. *)
Definition note_shape (note : string) : Prop :=
  exists l d, is_note_letter l = true /\ is_digit d = true
    /\ (note = String l (String d EmptyString)
        \/ note = String l (String "#" (String d EmptyString))).

(** The parsed pitches in ascending order and the distinct pitch classes,
    as [detectChord] computes them. *)
Definition midiNotes_of (notes : list string) : list Z :=
  array_sort (fun a b => a - b) (map noteToMidi notes).

Definition noteClasses_of (notes : list string) : list Z :=
  set_values (map (fun n => Z.rem n 12) (midiNotes_of notes)).

(** The template one [defineChord] call appends does not depend on the
    templates already present. *)
Definition appends (def : string * string) (formula : ChordFormula) : Prop :=
  forall formulas, defineChord (fst def) (snd def) formulas = Ok (formulas ++ [formula]).

(** The notes of a definition as note identifiers in a given octave, each
    name normalised to the sharp spelling as [defineChord] does (the parser
    reads no flats). *)
Definition templateNotes (octave : string) (noteStr : string) : list string :=
  map (fun n => (normalize_name n ++ octave)%string) (split "," noteStr).

Fixpoint ends_with (suffix s : string) : bool :=
  if String.eqb suffix s then true
  else match s with
       | EmptyString => false
       | String _ rest => ends_with suffix rest
       end.

Definition octave_digits : list string :=
  ["0"; "1"; "2"; "3"; "4"; "5"; "6"; "7"; "8"; "9"].

Definition result_is (expected : string) (r : js_result (option string)) : bool :=
  match r with
  | Ok (Some s) => String.eqb expected s
  | _ => false
  end.

Definition roundtrip_exceptions : list string := ["5"; "m13"; "7(b9)(#11)"].

Definition roundtrip_check (octave : string) (def : string * string) : bool :=
  existsb (String.eqb (fst def)) roundtrip_exceptions
  || result_is ("C" ++ fst def) (detectChord (templateNotes octave (snd def)) None).

Fixpoint comma_free (s : string) : Prop :=
  match s with
  | EmptyString => True
  | String c rest => c <> ","%char /\ comma_free rest
  end.

(** Transposition of a pitch class by [c] semitones. *)
Definition transpose (c : Z) (pc : Z) : Z := (pc + c) mod 12.

(** The pitch-class set of [l] is mapped to itself by the transposition. *)
Definition transposition_invariant (c : Z) (l : list Z) : Prop :=
  forall pc, In pc l -> In (transpose c pc) l.

Definition formula_well_formed (f : ChordFormula) : bool :=
  (0 <=? rootIndex f) && (rootIndex f <=? Z.of_nat (length (split "," (pattern f))))
  && negb (String.eqb (pattern f) "0").

(** The note names of one spelling, and the names [getIntervalName] can
    give (with the substitute "Interval"). *)
Definition note_names (useSharps : bool) : list string :=
  if useSharps then SHARP_NOTES else FLAT_NOTES.

Definition interval_names : list string :=
  [ "Unison"; "Minor 2nd"; "Major 2nd"; "Minor 3rd"; "Major 3rd"; "Perfect 4th";
    "Tritone"; "Perfect 5th"; "Minor 6th (or #5)"; "Major 6th"; "Minor 7th";
    "Major 7th"; "Octave"; "Flat 9th"; "9th"; "Minor 10th (or #9)"; "Major 10th";
    "11th"; "Augmented 11th"; "Perfect 12th"; "Flat 13th"; "13th"; "Interval" ].

(** The five kinds of display string. *)
Definition interval_form (useSharps : bool) (s : string) : Prop :=
  exists interval low high,
    In interval interval_names /\ In low (note_names useSharps)
    /\ In high (note_names useSharps)
    /\ s = (interval ++ " (" ++ low ++ ", " ++ high ++ ")")%string.

Definition soup_form (useSharps : bool) (s : string) : Prop :=
  exists bass, In bass (note_names useSharps) /\ s = (bass ++ " Note Soup")%string.

Definition chord_form (useSharps : bool) (s : string) : Prop :=
  exists formula root slash,
    In formula CHORD_FORMULAS /\ In root (note_names useSharps)
    /\ (slash = "" \/ exists bass, In bass (note_names useSharps)
                                   /\ slash = ("/" ++ bass)%string)
    /\ s = (root ++ name formula ++ slash)%string.

Definition fallback_form (useSharps : bool) (s : string) : Prop :=
  exists entries,
    Forall (fun e => e = "" \/ In e (note_names useSharps)) entries
    /\ s = ("(" ++ join ", " entries ++ ")")%string.

Definition display_form (useSharps : bool) (s : string) : Prop :=
  In s (note_names useSharps) \/ interval_form useSharps s \/ soup_form useSharps s
  \/ chord_form useSharps s \/ fallback_form useSharps s.

Fixpoint has_char (c : ascii) (s : string) : bool :=
  match s with
  | EmptyString => false
  | String a rest => Ascii.eqb a c || has_char c rest
  end.

(** [sub] occurs in [s]. *)
Fixpoint contains (sub s : string) : bool :=
  String.prefix sub s
  || match s with
     | EmptyString => false
     | String _ rest => contains sub rest
     end.

(** Free of the two names defined only in the supplementary block. *)
Definition clean (s : string) : bool :=
  negb (contains "m(maj9)" s) && negb (contains "m7(b9)" s).

(** Every string of the interval, soup and chord kinds. *)
Definition interval_outputs (useSharps : bool) : list string :=
  flat_map (fun interval =>
    flat_map (fun low =>
      map (fun high => (interval ++ " (" ++ low ++ ", " ++ high ++ ")")%string)
          (note_names useSharps))
      (note_names useSharps))
    interval_names.

Definition soup_outputs (useSharps : bool) : list string :=
  map (fun bass => (bass ++ " Note Soup")%string) (note_names useSharps).

Definition chord_outputs (useSharps : bool) : list string :=
  flat_map (fun formula =>
    flat_map (fun root =>
      (root ++ name formula ++ "")%string
      :: map (fun bass => (root ++ name formula ++ "/" ++ bass)%string)
             (note_names useSharps))
      (note_names useSharps))
    CHORD_FORMULAS.

(** The generator repeats no ordering of distinct elements. *)
Definition heap_nodup (A : Type) (n : nat) : Prop :=
  forall pre suf : list A, length pre = n -> NoDup pre ->
  NoDup (fst (permutations n (pre ++ suf))).

(** The pitch class a note spelling stands for: a letter in either case,
    alone or followed by one sharp or one flat sign. *)
Definition natural_pitch (letter : ascii) : option Z :=
  match upper_char letter with
  | "C"%char => Some 0
  | "D"%char => Some 2
  | "E"%char => Some 4
  | "F"%char => Some 5
  | "G"%char => Some 7
  | "A"%char => Some 9
  | "B"%char => Some 11
  | _ => None
  end.

Definition accidental_shift (accidental : string) : option Z :=
  match accidental with
  | EmptyString => Some 0
  | String c EmptyString =>
      if Ascii.eqb c "#" then Some 1
      else if Ascii.eqb (upper_char c) "B" then Some (-1)
      else None
  | _ => None
  end.

Definition spelled_pitch (spelling : string) : option Z :=
  match spelling with
  | EmptyString => None
  | String letter accidental =>
      match natural_pitch letter, accidental_shift accidental with
      | Some p, Some a => Some ((p + a) mod 12)
      | _, _ => None
      end
  end.

(** What the bookkeeping of the hook maintains: every held note sounds,
    every sounding note is held or sustained, and nothing is sustained
    while the pedal is up. *)
Definition sustain_inv (st : KeyboardState) : Prop :=
  currentlyHeldEffective st ⊆ activeNotes st
  /\ activeNotes st ⊆ currentlyHeldEffective st ∪ sustainedNotes st
  /\ (sustainDown st = false -> sustainedNotes st = ∅).

(** A definition played in octave 4 through the transposition of the
    hook, and whether it is then named by the transposed root. *)
Definition transposedNotes (semis : Z) (noteStr : string) : list string :=
  map (fun n => transposeNote n semis) (templateNotes "4" noteStr).

Definition transposed_check (semis : Z) (def : string * string) : bool :=
  existsb (String.eqb (fst def)) roundtrip_exceptions
  || result_is (midiToNoteName semis true ++ fst def)
               (detectChord (transposedNotes semis (snd def)) None).

(** * Properties *)

(** ** The permutation generator *)

Section HeapSpec.
Context {A : Type}.
Implicit Types (l pre suf c u v w q B R : list A) (Y : list (list A)).

Local Ltac list_len :=
  repeat (rewrite length_app in * ); simpl length in *; lia.

Local Ltac list_assoc :=
  simpl; rewrite <- ?app_assoc; simpl; rewrite <- ?app_assoc; try reflexivity.

Lemma snoc_case l : l = [] \/ exists l' x, l = l' ++ [x].
Proof.
  induction l as [|x l' _] using rev_ind; [by left|right; by exists l', x].
Qed.

Lemma rotr_snoc l x : rotr (l ++ [x]) = x :: l.
Proof. unfold rotr. rewrite rev_unit, rev_involutive. reflexivity. Qed.

Lemma swap_cons a l i j : swap (a :: l) (S i) (S j) = a :: swap l i j.
Proof. unfold swap. simpl. destruct (l !! i), (l !! j); reflexivity. Qed.

Lemma swap_diag l i : swap l i i = l.
Proof.
  unfold swap. destruct (l !! i) eqn:E; [|reflexivity].
  rewrite list_insert_insert_eq. by apply list_insert_id.
Qed.

(** Exchanging the cell after [l1 ++ x :: l2] with the cell after [l1]. *)
Lemma swap_far l1 l2 l3 x y :
  swap (l1 ++ x :: l2 ++ y :: l3) (length l1 + S (length l2)) (length l1)
  = l1 ++ y :: l2 ++ x :: l3.
Proof.
  induction l1 as [|a l1 IH]; simpl.
  - unfold swap. simpl.
    rewrite list_lookup_middle by reflexivity. simpl. f_equal.
    replace (length l2) with (length l2 + 0)%nat at 1 by lia.
    by rewrite insert_app_r.
  - rewrite swap_cons. by rewrite IH.
Qed.

Lemma yields_ok_nil B : yields_ok B [] [].
Proof. intros q. split; [intros []|]. intros [_ (q' & z & _ & [])]. Qed.

(** One more pass of the loop: the pass yields the orderings of [c]
    followed by [e]; the later passes yield [Y2]. *)
Lemma yields_ok_app B B' c e R R' Y1 Y2 :
  Permutation B (c ++ [e]) ->
  Permutation B B' ->
  (forall z, In z R <-> z = e \/ In z R') ->
  (forall q, In q Y1 <-> exists q', q = q' ++ [e] /\ Permutation c q') ->
  yields_ok B' R' Y2 ->
  yields_ok B R (Y1 ++ Y2).
Proof.
  intros HB HB' HR H1 H2 q. rewrite in_app_iff, H1, (H2 q). split.
  - intros [(q' & -> & Hq') | (Hq & q' & z & -> & Hz)].
    + split.
      * rewrite HB. by apply Permutation_app_tail.
      * exists q', e. split; [reflexivity|]. apply HR. by left.
    + split; [by rewrite HB'|].
      exists q', z. split; [reflexivity|]. apply HR. by right.
  - intros (Hq & q' & z & -> & Hz). apply HR in Hz as [-> | Hz].
    + left. exists q'. split; [reflexivity|].
      rewrite HB in Hq. by apply Permutation_app_inv_r in Hq.
    + right. split; [by rewrite <- HB'|]. by exists q', z.
Qed.

Lemma permutations_unfold m (array : list A) :
  permutations (S (S m)) array
  = fold_left (heap_step (permutations (S m)) (S (S m))) (seq 0 (S (S m))) ([], array).
Proof. reflexivity. Qed.

Section Loop.
Variable m : nat.
Hypothesis IH : heap_ok A m.
Variable suf : list A.

Local Abbreviation F := (@heap_step A (permutations m) (S m)).

Lemma heap_step_eq ys c e i :
  length c = m ->
  exists Y1,
    F (ys, c ++ [e] ++ suf) i
    = (ys ++ map (fun q => q ++ suf) Y1,
       swap (heap_buffer m c ++ [e] ++ suf) m (if Nat.odd (S m) then 0%nat else i))
    /\ forall q, In q Y1 <-> exists q', q = q' ++ [e] /\ Permutation c q'.
Proof.
  intros Hc. destruct (IH c ([e] ++ suf) Hc) as (Y' & HY' & Hperm).
  exists (map (fun q => q ++ [e]) Y'). split.
  - unfold heap_step. rewrite HY'. replace (S m - 1)%nat with m by lia.
    f_equal. f_equal. rewrite map_map. apply map_ext. intros q.
    by rewrite <- app_assoc.
  - intros q. rewrite in_map_iff. split.
    + intros (q' & <- & Hq'). exists q'. split; [reflexivity|]. by apply Hperm.
    + intros (q' & -> & Hq'). exists q'. split; [reflexivity|]. by apply Hperm.
Qed.

(** Odd [n = S m]: every pass rotates the block by one position. *)
Lemma odd_loop (Hodd : Nat.odd (S m) = true) (Hm : (1 <= m)%nat) :
  forall (idx : list nat) w B0 ys,
    length idx = length w -> length (B0 ++ w) = S m ->
    exists Y,
      fold_left F idx (ys, B0 ++ w ++ suf)
      = (ys ++ map (fun q => q ++ suf) Y, w ++ B0 ++ suf)
      /\ yields_ok (B0 ++ w) w Y.
Proof.
  assert (Heven : Nat.even m = true) by (by rewrite Nat.odd_succ in Hodd).
  induction idx as [|i idx IHidx]; intros w B0 ys Hlen HB.
  - destruct w; [|discriminate]. exists []. split.
    + simpl. by rewrite !app_nil_r.
    + apply yields_ok_nil.
  - destruct (snoc_case w) as [-> | (w' & x & ->)]; [discriminate|].
    rewrite length_app in Hlen. simpl in Hlen.
    assert (Hc : length (B0 ++ w') = m).
    { list_len. }
    destruct (heap_step_eq ys (B0 ++ w') x i Hc) as (Y1 & HY1 & Hchar).
    rewrite Hodd in HY1. unfold heap_buffer in HY1. rewrite Heven in HY1.
    destruct (snoc_case (B0 ++ w')) as [E | (c' & z & E)].
    { rewrite E in Hc. simpl in Hc. lia. }
    assert (Hrot : rotr (B0 ++ w') = z :: c') by (by rewrite E, rotr_snoc).
    rewrite Hrot in HY1.
    assert (Hsw : swap ((z :: c') ++ [x] ++ suf) m 0 = (x :: B0) ++ w' ++ suf).
    { pose proof (swap_far [] c' suf z x) as Hs. simpl in Hs.
      replace (S (length c')) with m in Hs.
      2:{ rewrite E in Hc. list_len. }
      simpl. rewrite Hs. simpl. f_equal.
      change (z :: suf) with ([z] ++ suf). rewrite app_assoc, <- E.
      by rewrite <- app_assoc. }
    rewrite Hsw in HY1.
    destruct (IHidx w' (x :: B0) (ys ++ map (fun q => q ++ suf) Y1))
      as (Y2 & HY2 & Hchar2).
    { lia. }
    { list_len. }
    exists (Y1 ++ Y2). split.
    + cbn [fold_left].
      replace (B0 ++ (w' ++ [x]) ++ suf) with ((B0 ++ w') ++ [x] ++ suf)
        by (by rewrite <- !app_assoc).
      rewrite HY1, HY2. f_equal.
      * by rewrite map_app, app_assoc.
      * by rewrite <- !app_assoc.
    + apply (yields_ok_app _ ((x :: B0) ++ w') (B0 ++ w') x _ w' Y1 Y2);
        [| |intros z'; rewrite in_app_iff; simpl; intuition congruence|exact Hchar|exact Hchar2].
      * by rewrite app_assoc.
      * rewrite app_assoc. simpl.
        by rewrite <- Permutation_cons_append.
Qed.

(** Even [n = S m]: pass [i] exchanges cell [i] with the last cell. *)
Lemma even_loop (Hodd : Nat.odd (S m) = false) (l : A) :
  forall v u x ys,
    (length u + 1 + length v = m)%nat ->
    exists Y,
      fold_left F (seq (S (length u)) (S (length v)))
                (ys, (l :: u) ++ v ++ [x] ++ suf)
      = (ys ++ map (fun q => q ++ suf) Y, (l :: u) ++ [x] ++ v ++ suf)
      /\ yields_ok ((l :: u) ++ v ++ [x]) (x :: v) Y.
Proof.
  assert (Heven : Nat.even m = false) by (by rewrite Nat.odd_succ in Hodd).
  induction v as [|y v' IHv]; intros u x ys Hlen.
  - simpl in Hlen.
    destruct (heap_step_eq ys (l :: u) x (S (length u))) as (Y1 & HY1 & Hchar).
    { simpl. lia. }
    rewrite Hodd in HY1. unfold heap_buffer in HY1. rewrite Heven in HY1.
    assert (Hsw : swap ((l :: u) ++ [x] ++ suf) m (S (length u))
                  = (l :: u) ++ [x] ++ suf).
    { replace m with (S (length u)) by lia. apply swap_diag. }
    rewrite Hsw in HY1.
    exists Y1. split.
    + cbn [seq fold_left length]. cbn [app] in HY1 |- *. exact HY1.
    + rewrite <- (app_nil_r Y1).
      apply (yields_ok_app _ ((l :: u) ++ [x]) (l :: u) x _ [] Y1 []);
        [reflexivity|reflexivity|simpl; intuition congruence|exact Hchar|].
      apply yields_ok_nil.
  - simpl in Hlen.
    destruct (heap_step_eq ys ((l :: u) ++ y :: v') x (S (length u)))
      as (Y1 & HY1 & Hchar).
    { list_len. }
    rewrite Hodd in HY1. unfold heap_buffer in HY1. rewrite Heven in HY1.
    assert (Hsw : swap (((l :: u) ++ y :: v') ++ [x] ++ suf) m (S (length u))
                  = (l :: u ++ [x]) ++ v' ++ [y] ++ suf).
    { pose proof (swap_far (l :: u) v' suf y x) as Hs.
      replace (length (l :: u) + S (length v'))%nat with m in Hs by (simpl; lia).
      simpl length in Hs. rewrite <- !app_assoc. simpl.
      simpl in Hs. rewrite Hs. by rewrite <- !app_assoc. }
    rewrite Hsw in HY1.
    destruct (IHv (u ++ [x]) y (ys ++ map (fun q => q ++ suf) Y1))
      as (Y2 & HY2 & Hchar2).
    { list_len. }
    replace (length (u ++ [x])) with (S (length u)) in HY2 by list_len.
    exists (Y1 ++ Y2). split.
    + rewrite <- cons_seq. cbn [fold_left length].
      rewrite (app_assoc (l :: u) (y :: v')), HY1, HY2. f_equal.
      * by rewrite map_app, app_assoc.
      * list_assoc.
    + apply (yields_ok_app _ ((l :: u ++ [x]) ++ v' ++ [y])
               ((l :: u) ++ y :: v') x _ (y :: v') Y1 Y2);
        [| |simpl; intuition congruence|exact Hchar|exact Hchar2].
      * by rewrite <- !app_assoc.
      * simpl. apply perm_skip. rewrite <- !app_assoc.
        apply Permutation_app_head. simpl.
        rewrite (Permutation_app_comm v' [y]). simpl.
        rewrite (Permutation_app_comm (y :: v') [x]). reflexivity.
Qed.
End Loop.

Lemma yields_ok_all pre R Y :
  (forall z, In z pre -> In z R) ->
  yields_ok pre R Y ->
  pre <> [] ->
  forall q, In q Y <-> Permutation pre q.
Proof.
  intros HR HY Hne q. rewrite (HY q). split; [tauto|].
  intros Hq. split; [exact Hq|].
  destruct (snoc_case q) as [-> | (q' & z & ->)].
  - apply Permutation_sym, Permutation_nil in Hq. contradiction.
  - exists q', z. split; [reflexivity|]. apply HR.
    apply (Permutation_in z (Permutation_sym Hq)).
    rewrite in_app_iff. right. by left.
Qed.

(** Heap's algorithm as written in [permutations] enumerates every ordering
    of the first [n] cells, and nothing else. *)
Theorem permutations_spec (n : nat) : heap_ok A n.
Proof.
  induction n as [|m IH]; intros pre suf Hlen.
  - destruct pre; [|discriminate]. exists [[]]. split; [reflexivity|].
    intros q. simpl. split.
    + intros [<- | []]. reflexivity.
    + intros Hq. left. symmetry. by apply Permutation_nil.
  - destruct m as [|k].
    + destruct pre as [|x [|? ?]]; try discriminate.
      exists [[x]]. split; [reflexivity|].
      intros q. simpl. split.
      * intros [<- | []]. reflexivity.
      * intros Hq. left. symmetry. by apply Permutation_length_1_inv.
    + rewrite permutations_unfold. unfold heap_buffer.
      rewrite <- Nat.negb_odd.
      destruct (Nat.odd (S (S k))) eqn:Hodd; simpl negb; cbv iota.
      * destruct (odd_loop (S k) IH suf Hodd ltac:(lia) (seq 0 (S (S k))) pre [] [])
          as (Y & HY & Hchar).
        { by rewrite length_seq. }
        { exact Hlen. }
        exists Y. split; [exact HY|].
        apply (yields_ok_all pre pre Y); [tauto|exact Hchar|].
        intros ->. discriminate.
      * destruct (snoc_case pre) as [-> | (p & l & ->)]; [discriminate|].
        destruct p as [|y v0]; [discriminate|].
        assert (Hk : S k = S (length v0)) by list_len.
        destruct (heap_step_eq (S k) IH suf [] (y :: v0) l 0%nat) as (Y1 & HY1 & Hchar1).
        { list_len. }
        rewrite Hodd in HY1. unfold heap_buffer in HY1.
        assert (Heven : Nat.even (S k) = false) by (by rewrite Nat.odd_succ in Hodd).
        rewrite Heven in HY1.
        assert (Hsw : swap ((y :: v0) ++ [l] ++ suf) (S k) 0
                      = (l :: []) ++ v0 ++ [y] ++ suf).
        { pose proof (swap_far [] v0 suf y l) as Hs. simpl in Hs.
          rewrite Hk. simpl. exact Hs. }
        rewrite Hsw in HY1.
        destruct (even_loop (S k) IH suf Hodd l v0 [] y
                    ([] ++ map (fun q => q ++ suf) Y1)) as (Y2 & HY2 & Hchar2).
        { list_len. }
        exists (Y1 ++ Y2). split.
        -- rewrite <- cons_seq. cbn [fold_left].
           replace (((y :: v0) ++ [l]) ++ suf) with ((y :: v0) ++ [l] ++ suf)
             by (by rewrite <- !app_assoc).
           simpl length in HY2. rewrite <- Hk in HY2.
           rewrite HY1, HY2, rotr_snoc. f_equal. by rewrite map_app.
        -- apply (yields_ok_all _ (l :: y :: v0)).
           ++ intros z. rewrite in_app_iff. simpl. intuition congruence.
           ++ apply (yields_ok_app _ ((l :: []) ++ v0 ++ [y]) (y :: v0) l _
                       (y :: v0) Y1 Y2);
                [reflexivity| |simpl; intuition congruence|exact Hchar1|exact Hchar2].
              simpl. rewrite <- !Permutation_cons_append. apply perm_swap.
           ++ intros E. destruct v0; discriminate.
Qed.
End HeapSpec.

(** Every ordering of the array is yielded, and only orderings of it. *)
Corollary permutations_complete {A : Type} (array q : list A) :
  In q (fst (permutations (length array) array)) <-> Permutation array q.
Proof.
  destruct (permutations_spec (length array) array [] eq_refl) as (Y & HY & Hchar).
  rewrite app_nil_r in HY. rewrite HY. simpl. rewrite <- Hchar.
  rewrite in_map_iff. split.
  - intros (q' & <- & Hq'). by rewrite app_nil_r.
  - intros Hq. exists q. split; [apply app_nil_r|exact Hq].
Qed.

(** ** Interval patterns *)

Lemma lift_interval_spec (fuel : nat) : forall interval,
  (Z.to_nat (- interval) <= fuel)%nat ->
  lift_interval fuel interval = if interval <? 0 then interval mod 12 else interval.
Proof.
  induction fuel as [|fuel IH]; intros z Hfuel; simpl.
  - destruct (Z.ltb_spec z 0); [lia|reflexivity].
  - destruct (Z.ltb_spec z 0) as [Hneg|Hpos]; [|reflexivity].
    rewrite IH by lia.
    destruct (Z.ltb_spec (z + 12) 0).
    + replace (z + 12) with (z + 1 * 12) by lia. apply Z_mod_plus_full.
    + apply (Z.mod_unique z 12 (-1)); lia.
Qed.

Lemma normalize_interval_spec (interval : Z) :
  normalize_interval interval = if interval <? 0 then interval mod 12 else interval.
Proof. unfold normalize_interval. apply lift_interval_spec. lia. Qed.

Lemma normalize_interval_nonneg (interval : Z) : 0 <= normalize_interval interval.
Proof.
  rewrite normalize_interval_spec. destruct (Z.ltb_spec interval 0); [|lia].
  apply Z.mod_pos_bound. lia.
Qed.

Lemma intervals_nonneg (chord : list Z) : Forall (fun v => 0 <= v) (intervals chord).
Proof.
  induction chord as [|a [|b rest] IH]; simpl; try constructor.
  - apply normalize_interval_nonneg.
  - exact IH.
Qed.

Lemma getIntervalPattern_nonneg (chord : list Z) :
  Forall (fun v => 0 <= v) (getIntervalPattern chord).
Proof.
  unfold getIntervalPattern. destruct (length chord <? 2)%nat.
  - repeat constructor. lia.
  - apply intervals_nonneg.
Qed.

Lemma fold_left_add_nonneg (pattern : list Z) :
  Forall (fun v => 0 <= v) pattern ->
  forall acc, 0 <= acc -> 0 <= fold_left Z.add pattern acc.
Proof.
  induction 1 as [|v pattern Hv _ IH]; intros acc Hacc; simpl.
  - exact Hacc.
  - apply IH. lia.
Qed.

Lemma energy_of_nonneg (pattern : list Z) :
  Forall (fun v => 0 <= v) pattern -> 0 <= energy_of pattern.
Proof. intros H. apply fold_left_add_nonneg; [exact H|lia]. Qed.

Lemma energy_nonneg (chord : list Z) : 0 <= energy chord.
Proof. apply energy_of_nonneg, getIntervalPattern_nonneg. Qed.

(** ** The comparator sort *)

Section SortSpec.
Context {A : Type} (cmp : A -> A -> Z).
Hypothesis cmp_total : forall a b, cmp a b <= 0 \/ cmp b a <= 0.
Hypothesis cmp_trans : forall a b c, cmp a b <= 0 -> cmp b c <= 0 -> cmp a c <= 0.

Lemma sort_insert_perm (x : A) (l : list A) : Permutation (sort_insert cmp x l) (x :: l).
Proof.
  induction l as [|y rest IH]; simpl; [reflexivity|].
  destruct (cmp x y <=? 0); [reflexivity|].
  rewrite IH. apply perm_swap.
Qed.

Lemma array_sort_perm (l : list A) : Permutation (array_sort cmp l) l.
Proof.
  induction l as [|x rest IH]; simpl; [reflexivity|].
  rewrite sort_insert_perm. by apply perm_skip.
Qed.

Lemma sort_insert_sorted (x : A) (l : list A) :
  StronglySorted (fun a b => cmp a b <= 0) l ->
  StronglySorted (fun a b => cmp a b <= 0) (sort_insert cmp x l).
Proof.
  induction 1 as [|y rest Hs IH Hy]; simpl.
  - repeat constructor.
  - destruct (Z.leb_spec (cmp x y) 0) as [Hle|Hgt].
    + constructor; [by constructor|].
      constructor; [exact Hle|].
      rewrite List.Forall_forall in Hy |- *. intros z Hz.
      eapply cmp_trans; [exact Hle|by apply Hy].
    + constructor; [exact IH|].
      rewrite List.Forall_forall. intros z Hz.
      apply (Permutation_in z (sort_insert_perm x rest)) in Hz as [<- | Hz].
      * destruct (cmp_total y x); [assumption|lia].
      * rewrite List.Forall_forall in Hy. by apply Hy.
Qed.

Lemma array_sort_sorted (l : list A) :
  StronglySorted (fun a b => cmp a b <= 0) (array_sort cmp l).
Proof.
  induction l as [|x rest IH]; simpl; [constructor|by apply sort_insert_sorted].
Qed.

(** The element the sort puts first is a least element of the array. *)
Lemma array_sort_head (l : list A) (h : A) (t : list A) :
  array_sort cmp l = h :: t ->
  In h l /\ forall y, In y l -> cmp h y <= 0.
Proof.
  intros E. pose proof (array_sort_perm l) as Hp.
  pose proof (array_sort_sorted l) as Hs. rewrite E in Hp, Hs.
  split.
  - apply (Permutation_in h Hp). by left.
  - intros y Hy. apply (Permutation_in y (Permutation_sym Hp)) in Hy as [<- | Hy].
    + destruct (cmp_total h h); assumption.
    + inversion Hs as [|? ? _ Hall]; subst.
      rewrite List.Forall_forall in Hall. by apply Hall.
Qed.
End SortSpec.

(** ** Lexicographic comparison of the sort keys *)

Lemma string_compare_trans (a : string) : forall b c,
  String.compare a b <> Gt -> String.compare b c <> Gt -> String.compare a c <> Gt.
Proof.
  induction a as [|x a IH]; intros [|y b] [|z c]; simpl; try congruence.
  unfold Ascii.compare.
  destruct (N.compare_spec (N_of_ascii x) (N_of_ascii y)) as [Exy|Hxy|Hxy];
    destruct (N.compare_spec (N_of_ascii y) (N_of_ascii z)) as [Eyz|Hyz|Hyz];
    destruct (N.compare_spec (N_of_ascii x) (N_of_ascii z)) as [Exz|Hxz|Hxz];
    try congruence; try lia.
  apply IH.
Qed.

Lemma localeCompare_le (s t : string) :
  localeCompare s t <= 0 <-> String.leb s t = true.
Proof.
  unfold localeCompare, String.leb. destruct (String.compare s t); split; try lia; congruence.
Qed.

Lemma localeCompare_total (s t : string) :
  localeCompare s t <= 0 \/ localeCompare t s <= 0.
Proof. rewrite !localeCompare_le. apply String.leb_total. Qed.

Lemma localeCompare_trans (s t u : string) :
  localeCompare s t <= 0 -> localeCompare t u <= 0 -> localeCompare s u <= 0.
Proof.
  rewrite !localeCompare_le. unfold String.leb. intros Hst Htu.
  pose proof (string_compare_trans s t u) as H.
  destruct (String.compare s t), (String.compare t u), (String.compare s u);
    try reflexivity; try discriminate; exfalso; apply H; congruence.
Qed.

(** ** The canonical stacking resolver *)

Lemma stack_step_inv (seen : list (list Z)) (st : Z * list Candidate) (p : list Z) :
  stack_inv seen st -> stack_inv (seen ++ [p]) (stack_step st p).
Proof.
  intros [Hnil Hcons]. split; [by destruct seen|]. intros _.
  pose proof (energy_nonneg p) as Hp.
  destruct st as [e cs]. unfold stack_step.
  fold (patternKey p). fold (candidate_of p). fold (energy p).
  assert (Hnew : (forall q, In q seen -> energy p < energy q) ->
            0 <= energy p /\ [candidate_of p] <> [] /\
            (forall c, In c [candidate_of p] ->
               In (chord c) (seen ++ [p]) /\ energy (chord c) = energy p
               /\ patternStr c = patternKey (chord c)) /\
            (forall q, In q (seen ++ [p]) ->
               energy p <= energy q
               /\ (energy q = energy p -> In (candidate_of q) [candidate_of p]))).
  { intros Hlt. split; [exact Hp|]. split; [discriminate|]. split.
    - intros c [<- | []]. simpl. rewrite in_app_iff. split; [right; by left|by split].
    - intros q Hq. rewrite in_app_iff in Hq. destruct Hq as [Hq | [<- | []]].
      + specialize (Hlt q Hq). split; [lia|]. intros Heq. lia.
      + split; [lia|]. intros _. by left. }
  destruct seen as [|p0 seen'].
  - specialize (Hnil eq_refl). injection Hnil as -> ->.
    rewrite Z.eqb_refl, orb_true_r. simpl fst. simpl snd.
    apply Hnew. intros q [].
  - destruct Hcons as (He & Hne & Hcs & Hseen); [discriminate|].
    simpl fst in *. simpl snd in *.
    replace (e =? -1) with false by (symmetry; apply Z.eqb_neq; lia).
    rewrite orb_false_r.
    destruct (Z.ltb_spec (energy p) e) as [Hlt|Hge].
    + apply Hnew. intros q Hq. destruct (Hseen q Hq). lia.
    + destruct (Z.eqb_spec (energy p) e) as [Heq|Hneq]; simpl fst; simpl snd.
      * split; [exact He|]. split; [intros E; by destruct cs|]. split.
        -- intros c Hc. rewrite in_app_iff in Hc |- *. destruct Hc as [Hc | [<- | []]].
           ++ destruct (Hcs c Hc) as (? & ? & ?). by repeat split; [left|..].
           ++ simpl. by repeat split; [right; left|..].
        -- intros q Hq. rewrite in_app_iff in Hq |- *. destruct Hq as [Hq | [<- | []]].
           ++ destruct (Hseen q Hq) as [? Hin]. split; [assumption|].
              intros Hqe. left. by apply Hin.
           ++ split; [lia|]. intros _. right. by left.
      * split; [exact He|]. split; [exact Hne|]. split.
        -- intros c Hc. destruct (Hcs c Hc) as (? & ? & ?).
           rewrite in_app_iff. by repeat split; [left|..].
        -- intros q Hq. rewrite in_app_iff in Hq. destruct Hq as [Hq | [<- | []]].
           ++ by apply Hseen.
           ++ split; [lia|]. intros Hqe. lia.
Qed.

Lemma fold_stack_inv (rest : list (list Z)) : forall seen st,
  stack_inv seen st -> stack_inv (seen ++ rest) (fold_left stack_step rest st).
Proof.
  induction rest as [|p rest IH]; intros seen st Hinv; simpl.
  - by rewrite app_nil_r.
  - replace (seen ++ p :: rest) with ((seen ++ [p]) ++ rest) by (by rewrite <- app_assoc).
    apply IH. by apply stack_step_inv.
Qed.

(** For two or more pitch classes the resolver returns an ordering of the
    input of least energy, whose sort key is least among the orderings of
    least energy. *)
Lemma getAsStackedChord_spec (noteClasses : list Z) :
  (2 <= length noteClasses)%nat ->
  exists stacked,
    getAsStackedChord noteClasses = Ok stacked
    /\ Permutation noteClasses stacked
    /\ forall q, Permutation noteClasses q ->
         energy stacked <= energy q
         /\ (energy q = energy stacked ->
             String.leb (patternKey stacked) (patternKey q) = true).
Proof.
  intros Hlen. unfold getAsStackedChord.
  replace (length noteClasses <=? 1)%nat with false by (symmetry; apply Nat.leb_gt; lia).
  set (P := fst (permutations (length noteClasses) noteClasses)).
  assert (HP : forall q, In q P <-> Permutation noteClasses q)
    by (intros q; apply permutations_complete).
  pose proof (fold_stack_inv P [] (-1, [])) as Hinv. simpl in Hinv.
  destruct (fold_left stack_step P (-1, [])) as [e cs].
  destruct Hinv as [_ Hinv]; [split; [reflexivity|congruence]|].
  destruct Hinv as (He & Hne & Hcs & Hseen).
  { intros E. assert (Hin : In noteClasses P) by (by apply HP).
    rewrite E in Hin. destruct Hin. }
  simpl in He, Hne, Hcs, Hseen.
  set (cmp := fun a b : Candidate => localeCompare (patternStr a) (patternStr b)).
  destruct (array_sort cmp cs) as [|h t] eqn:Hsort.
  { pose proof (array_sort_perm cmp cs) as Hp. rewrite Hsort in Hp.
    apply Permutation_nil in Hp. contradiction. }
  destruct (array_sort_head cmp) with (l := cs) (h := h) (t := t) as [Hh Hmin].
  { intros a b. apply localeCompare_total. }
  { intros a b c. apply localeCompare_trans. }
  { exact Hsort. }
  destruct (Hcs h Hh) as (HhP & Hhe & Hhk).
  exists (chord h). split; [reflexivity|]. split; [by apply HP|].
  intros q Hq. apply HP in Hq. destruct (Hseen q Hq) as [Hle Heq].
  split; [lia|]. intros Hqe.
  specialize (Hmin (candidate_of q) (Heq ltac:(lia))).
  unfold cmp in Hmin. simpl in Hmin. rewrite Hhk in Hmin.
  by apply localeCompare_le.
Qed.

(** C1. For a nonempty list of distinct pitch classes the resolver returns
    an ordering of exactly that set (each element once) whose energy is at
    most the energy of every ordering of the set, and whose comma-joined
    interval pattern is lexicographically least among the orderings of
    least energy. *)
Theorem getAsStackedChord_minimal (noteClasses : list Z) :
  noteClasses <> [] ->
  NoDup noteClasses ->
  Forall is_pitch_class noteClasses ->
  exists stacked,
    getAsStackedChord noteClasses = Ok stacked
    /\ Permutation noteClasses stacked
    /\ NoDup stacked
    /\ (forall q, Permutation noteClasses q -> energy stacked <= energy q)
    /\ (forall q, Permutation noteClasses q -> energy q = energy stacked ->
          String.leb (patternKey stacked) (patternKey q) = true).
Proof.
  intros Hne Hnd _.
  destruct noteClasses as [|a [|b rest]]; [contradiction| |].
  - exists [a]. split; [reflexivity|]. split; [reflexivity|]. split; [exact Hnd|].
    split; intros q Hq; apply Permutation_length_1_inv in Hq as ->.
    + lia.
    + intros _. by destruct (String.leb_total (patternKey [a]) (patternKey [a])).
  - destruct (getAsStackedChord_spec (a :: b :: rest)) as (stacked & Hres & Hperm & Hmin).
    { simpl. lia. }
    exists stacked. split; [exact Hres|]. split; [exact Hperm|].
    split; [by rewrite <- Hperm|].
    split; intros q Hq; by apply Hmin.
Qed.

Lemma getAsStackedChord_minimal_witness :
  exists stacked,
    getAsStackedChord [0; 4; 7] = Ok stacked
    /\ Permutation [0; 4; 7] stacked
    /\ NoDup stacked
    /\ (forall q, Permutation [0; 4; 7] q -> energy stacked <= energy q)
    /\ (forall q, Permutation [0; 4; 7] q -> energy q = energy stacked ->
          String.leb (patternKey stacked) (patternKey q) = true).
Proof.
  apply getAsStackedChord_minimal.
  - discriminate.
  - apply NoDup_ListNoDup. repeat constructor; simpl; intuition lia.
  - repeat constructor; unfold is_pitch_class; lia.
Defined.

(** The augmented triad: its three rotations have the same energy and the
    same interval pattern, and the stable sort keeps the one met first, which
    is the input order. *)
Lemma getAsStackedChord_order_dependent :
  NoDup [0; 4; 8] /\ Forall is_pitch_class [0; 4; 8]
  /\ Permutation [0; 4; 8] [4; 8; 0]
  /\ getAsStackedChord [0; 4; 8] = Ok [0; 4; 8]
  /\ getAsStackedChord [4; 8; 0] = Ok [4; 8; 0]
  /\ getAsStackedChord [0; 4; 8] <> getAsStackedChord [4; 8; 0].
Proof.
  split; [apply NoDup_ListNoDup; repeat constructor; simpl; intuition lia|].
  split; [repeat constructor; unfold is_pitch_class; lia|].
  split; [change [4; 8; 0] with ([4; 8] ++ [0]); apply Permutation_cons_append|].
  split; [reflexivity|]. split; [reflexivity|].
  intros E. vm_compute in E. discriminate E.
Qed.

(** ** Interval patterns of distinct pitch classes *)

Lemma normalize_interval_distinct (a b : Z) :
  is_pitch_class a -> is_pitch_class b -> a <> b ->
  normalize_interval (b - a) = (b - a) mod 12 /\ 1 <= (b - a) mod 12 <= 11.
Proof.
  unfold is_pitch_class. intros Ha Hb Hab. rewrite normalize_interval_spec.
  destruct (Z.ltb_spec (b - a) 0) as [Hneg|Hpos].
  - split; [reflexivity|].
    rewrite <- (Z.mod_unique (b - a) 12 (-1) (b - a + 12)); lia.
  - rewrite Z.mod_small by lia. split; [reflexivity|lia].
Qed.

Lemma intervals_length (chord : list Z) :
  length (intervals chord) = (length chord - 1)%nat.
Proof.
  induction chord as [|a [|b rest] IH]; try reflexivity.
  change (intervals (a :: b :: rest))
    with (normalize_interval (b - a) :: intervals (b :: rest)).
  simpl length in *. rewrite IH. lia.
Qed.

Lemma intervals_lookup (chord : list Z) :
  NoDup chord -> Forall is_pitch_class chord ->
  forall (i : nat) a b, chord !! i = Some a -> chord !! S i = Some b ->
    intervals chord !! i = Some ((b - a) mod 12) /\ 1 <= (b - a) mod 12 <= 11.
Proof.
  induction chord as [|x [|y rest] IH]; intros Hnd Hpc i a b Ha Hb.
  - by rewrite lookup_nil in Ha.
  - change ([x] !! S i) with (@nil Z !! i) in Hb. by rewrite lookup_nil in Hb.
  - change (intervals (x :: y :: rest))
      with (normalize_interval (y - x) :: intervals (y :: rest)).
    apply NoDup_cons in Hnd as [Hx Hnd].
    inversion Hpc as [|? ? Hxpc Hpc']; subst.
    destruct i as [|i].
    + simpl in Ha, Hb. injection Ha as <-. injection Hb as <-.
      inversion Hpc' as [|? ? Hypc _]; subst.
      destruct (normalize_interval_distinct x y Hxpc Hypc) as [-> Hr].
      { intros ->. apply Hx. by left. }
      by split.
    + simpl in Ha. change ((y :: rest) !! S i = Some b) in Hb.
      simpl lookup at 1. by apply IH.
Qed.

(** C5, as the code has it. An ordering of [n >= 2] distinct pitch classes
    has a pattern of [n - 1] entries, entry [i] being the forward distance
    [(chord[i+1] - chord[i]) mod 12], which lies in [[1,11]]; an ordering of
    fewer than two pitch classes has the one-entry pattern [[0]]. *)
Theorem getIntervalPattern_shape (chord : list Z) :
  NoDup chord ->
  Forall is_pitch_class chord ->
  ((2 <= length chord)%nat ->
     length (getIntervalPattern chord) = (length chord - 1)%nat
     /\ (forall (i : nat) a b, chord !! i = Some a -> chord !! S i = Some b ->
           getIntervalPattern chord !! i = Some ((b - a) mod 12)
           /\ 1 <= (b - a) mod 12 <= 11)
     /\ Forall (fun v => 1 <= v <= 11) (getIntervalPattern chord))
  /\ ((length chord < 2)%nat -> getIntervalPattern chord = [0]).
Proof.
  intros Hnd Hpc. unfold getIntervalPattern. split; intros Hlen.
  - replace (length chord <? 2)%nat with false by (symmetry; apply Nat.ltb_ge; lia).
    split; [apply intervals_length|]. split; [by apply intervals_lookup|].
    apply List.Forall_forall. intros v Hv.
    apply list_elem_of_In, list_elem_of_lookup in Hv as [i Hi].
    assert (Hi' : (i < length (intervals chord))%nat) by (by eapply lookup_lt_Some).
    rewrite intervals_length in Hi'.
    destruct (lookup_lt_is_Some_2 chord i) as [a Ha]; [lia|].
    destruct (lookup_lt_is_Some_2 chord (S i)) as [b Hb]; [lia|].
    destruct (intervals_lookup chord Hnd Hpc i a b Ha Hb) as [Hv' Hr].
    rewrite Hi in Hv'. by injection Hv' as ->.
  - by replace (length chord <? 2)%nat with true by (symmetry; apply Nat.ltb_lt; lia).
Qed.

Lemma getIntervalPattern_shape_witness :
  ((2 <= length [0; 4; 7]%Z)%nat ->
     length (getIntervalPattern [0; 4; 7]) = (length [0; 4; 7]%Z - 1)%nat
     /\ (forall (i : nat) a b, [0; 4; 7] !! i = Some a -> [0; 4; 7] !! S i = Some b ->
           getIntervalPattern [0; 4; 7] !! i = Some ((b - a) mod 12)
           /\ 1 <= (b - a) mod 12 <= 11)
     /\ Forall (fun v => 1 <= v <= 11) (getIntervalPattern [0; 4; 7]))
  /\ ((length [0; 4; 7]%Z < 2)%nat -> getIntervalPattern [0; 4; 7] = [0]).
Proof.
  apply getIntervalPattern_shape.
  - apply NoDup_ListNoDup. repeat constructor; simpl; intuition lia.
  - repeat constructor; unfold is_pitch_class; lia.
Defined.

(** A single pitch class gives a pattern of length one, not zero, and its
    entry is 0. *)
Lemma getIntervalPattern_single :
  NoDup [5] /\ Forall is_pitch_class [5]
  /\ getIntervalPattern [5] = [0]
  /\ length (getIntervalPattern [5]) <> (length [5]%Z - 1)%nat
  /\ ~ Forall (fun v => 1 <= v <= 11) (getIntervalPattern [5]).
Proof.
  split; [apply NoDup_ListNoDup; repeat constructor; simpl; tauto|].
  split; [repeat constructor; unfold is_pitch_class; lia|].
  split; [reflexivity|]. split; [discriminate|].
  intros H. inversion H as [|? ? Hv _]; subst. lia.
Qed.

(** ** Note names *)

Lemma note_match_None (note : string) : ~ note_shape note -> note_match note = None.
Proof.
  intros Hshape.
  destruct note as [|l [|c [|d [|? ?]]]]; try reflexivity; simpl.
  - destruct (is_note_letter l) eqn:Hl, (is_digit c) eqn:Hc; try reflexivity.
    exfalso. apply Hshape. exists l, c. auto.
  - destruct (is_note_letter l) eqn:Hl, (is_sharp c) eqn:Hs, (is_digit d) eqn:Hd;
      try reflexivity.
    exfalso. apply Hshape. exists l, d. apply Ascii.eqb_eq in Hs as ->. auto.
Qed.

(** C8, as the code has it. A name of the sharp table followed by one
    unsigned digit parses to [12 * (octave + 1) + pitchClass]; a string that
    is not a letter A-G, an optional sharp and one unsigned digit gives the
    sentinel [-1]. *)
Theorem noteToMidi_spec (note : string) :
  (forall name d, In name SHARP_NOTES -> is_digit d = true ->
     note = (name ++ String d EmptyString)%string ->
     exists pitchClass,
       SHARP_NOTES !! Z.to_nat pitchClass = Some name
       /\ 0 <= pitchClass <= 11
       /\ 0 <= digit_value d <= 9
       /\ noteToMidi note = 12 * (digit_value d + 1) + pitchClass)
  /\ (~ note_shape note -> noteToMidi note = -1).
Proof.
  split.
  - intros name d Hname Hd ->.
    assert (Hrange : 0 <= digit_value d <= 9).
    { unfold is_digit in Hd. unfold digit_value.
      apply andb_true_iff in Hd as [H1 H2].
      apply Nat.leb_le in H1, H2. lia. }
    unfold noteToMidi.
    simpl in Hname.
    repeat (destruct Hname as [<- | Hname];
      [ simpl; rewrite Hd; unfold parseInt10; simpl parseInt_from;
        eexists; split; [|split; [|split; [exact Hrange|vm_compute indexOf; reflexivity]]];
        [reflexivity|lia] |]).
    destruct Hname.
  - intros Hshape. unfold noteToMidi. by rewrite note_match_None.
Qed.

Lemma noteToMidi_spec_witness :
  (exists pitchClass,
     SHARP_NOTES !! Z.to_nat pitchClass = Some "C#"
     /\ 0 <= pitchClass <= 11
     /\ 0 <= digit_value "4" <= 9
     /\ noteToMidi "C#4" = 12 * (digit_value "4" + 1) + pitchClass)
  /\ noteToMidi "H4" = -1.
Proof.
  split.
  - apply (proj1 (noteToMidi_spec "C#4") "C#" "4"%char).
    + simpl. tauto.
    + reflexivity.
    + reflexivity.
  - apply (proj2 (noteToMidi_spec "H4")).
    intros (l & d & Hl & Hd & [E | E]); [|discriminate E].
    injection E as <- <-. vm_compute in Hl. discriminate Hl.
Defined.

(** A signed octave is not parsed: the pattern admits one unsigned digit. *)
Lemma noteToMidi_signed_octave :
  noteToMidi "C-1" = -1 /\ noteToMidi "C-1" <> 12 * (-1 + 1) + 0.
Proof. split; [reflexivity|]. vm_compute. discriminate. Qed.

(** The names E# and B# pass the pattern but are not in the sharp table:
    the index [-1] is added to the octave base. *)
Lemma noteToMidi_E_sharp :
  note_shape "E#4" /\ noteToMidi "E#4" = 59 /\ noteToMidi "B#4" = 59
  /\ noteToMidi "B3" = 59.
Proof.
  split; [|repeat split; reflexivity].
  exists "E"%char, "4"%char. repeat split; auto.
Qed.

(** ** Detection *)

Lemma string_app_cons (c : ascii) (s t : string) :
  (String c s ++ t)%string = String c (s ++ t)%string.
Proof. reflexivity. Qed.

Lemma string_app_assoc (s t u : string) : ((s ++ t) ++ u = s ++ t ++ u)%string.
Proof.
  induction s as [|c s IH]; [reflexivity|].
  rewrite !string_app_cons. by f_equal.
Qed.

Lemma string_app_nil_r (s : string) : (s ++ "")%string = s.
Proof.
  induction s as [|c s IH]; [reflexivity|].
  rewrite string_app_cons. by f_equal.
Qed.

Lemma midiNotes_of_perm (notes : list string) :
  Permutation (midiNotes_of notes) (map noteToMidi notes).
Proof. apply array_sort_perm. Qed.

Lemma midiNotes_of_length (notes : list string) :
  length (midiNotes_of notes) = length notes.
Proof. by rewrite (Permutation_length (midiNotes_of_perm notes)), length_map. Qed.

(** The first sorted pitch is the lowest one. *)
Lemma midiNotes_of_bass (notes : list string) (bassNote : Z) (rest : list Z) :
  midiNotes_of notes = bassNote :: rest ->
  In bassNote (map noteToMidi notes)
  /\ forall n, In n (map noteToMidi notes) -> bassNote <= n.
Proof.
  intros E. destruct (array_sort_head (fun a b => a - b)) with
    (l := map noteToMidi notes) (h := bassNote) (t := rest) as [Hin Hmin].
  - intros a b. lia.
  - intros a b c. lia.
  - exact E.
  - split; [exact Hin|]. intros n Hn. specialize (Hmin n Hn). simpl in Hmin. lia.
Qed.

(** The resolver never throws. *)
Lemma getAsStackedChord_total (noteClasses : list Z) :
  exists stacked, getAsStackedChord noteClasses = Ok stacked
                  /\ Permutation noteClasses stacked.
Proof.
  destruct (Nat.le_gt_cases (length noteClasses) 1) as [Hle|Hgt].
  - exists noteClasses. split; [|reflexivity]. unfold getAsStackedChord.
    by replace (length noteClasses <=? 1)%nat with true
      by (symmetry; apply Nat.leb_le; lia).
  - destruct (getAsStackedChord_spec noteClasses) as (stacked & Hres & Hperm & _); [lia|].
    by exists stacked.
Qed.

(** Whatever the database holds, a nonempty input gets a string. *)
Lemma detectChordWith_some (formulas : list ChordFormula) (notes : list string)
    (opts : option DetectOptions) :
  notes <> [] ->
  exists s, detectChordWith getAsStackedChord formulas notes opts = Ok (Some s).
Proof.
  intros Hne. unfold detectChordWith.
  destruct notes as [|n notes']; [contradiction|]. simpl Nat.eqb. cbv iota.
  fold (midiNotes_of (n :: notes')). fold (noteClasses_of (n :: notes')).
  pose proof (midiNotes_of_length (n :: notes')) as Hlen.
  destruct (midiNotes_of (n :: notes')) as [|b [|h [|x rest]]]; [discriminate|..].
  - eauto.
  - eauto.
  - destruct (9 <=? length (noteClasses_of (n :: notes')))%nat; [eauto|].
    destruct (getAsStackedChord_total (noteClasses_of (n :: notes')))
      as (stacked & -> & _). cbn [js_bind].
    match goal with |- context [find ?f ?l] => destruct (find f l) end; eauto.
Qed.

(** C7. With nine or more distinct pitch classes the answer is the name of
    the lowest note followed by " Note Soup", whatever the resolver and the
    database are: neither is consulted. *)
Theorem detectChord_note_soup :
  (forall (resolver : list Z -> js_result (list Z)) (formulas : list ChordFormula)
          (notes : list string) (opts : option DetectOptions),
      (3 <= length notes)%nat ->
      (9 <= length (noteClasses_of notes))%nat ->
      exists bassNote,
        head (midiNotes_of notes) = Some bassNote
        /\ (forall n, In n (map noteToMidi notes) -> bassNote <= n)
        /\ detectChordWith resolver formulas notes opts
           = Ok (Some (midiToNoteName bassNote (useSharps_of opts) ++ " Note Soup")%string))
  /\ detectChord ["C4"; "C#4"; "D4"; "D#4"; "E4"; "F4"; "F#4"; "G4"; "G#4"] None
     = Ok (Some "C Note Soup").
Proof.
  split; [|reflexivity].
  intros resolver formulas notes opts Hlen Hsoup.
  unfold detectChordWith.
  replace (length notes =? 0)%nat with false by (symmetry; apply Nat.eqb_neq; lia).
  fold (midiNotes_of notes). fold (noteClasses_of notes).
  pose proof (midiNotes_of_length notes) as Hl.
  pose proof (midiNotes_of_bass notes) as Hbass.
  destruct (midiNotes_of notes) as [|b [|h [|x rest]]]; simpl in Hl; try lia.
  exists b. split; [reflexivity|]. split; [by apply (Hbass b (h :: x :: rest))|].
  by replace (9 <=? length (noteClasses_of notes))%nat with true
    by (symmetry; apply Nat.leb_le; lia).
Qed.

Lemma detectChord_note_soup_witness :
  exists bassNote,
    head (midiNotes_of ["C4"; "C#4"; "D4"; "D#4"; "E4"; "F4"; "F#4"; "G4"; "G#4"])
    = Some bassNote
    /\ (forall n,
          In n (map noteToMidi ["C4"; "C#4"; "D4"; "D#4"; "E4"; "F4"; "F#4"; "G4"; "G#4"]) ->
          bassNote <= n)
    /\ detectChordWith (fun _ => Throw) []
         ["C4"; "C#4"; "D4"; "D#4"; "E4"; "F4"; "F#4"; "G4"; "G#4"] None
       = Ok (Some (midiToNoteName bassNote (useSharps_of None) ++ " Note Soup")%string).
Proof.
  apply (proj1 detectChord_note_soup).
  - simpl. lia.
  - vm_compute. lia.
Defined.

(** Name composition on a database match, for any database. *)
Lemma detectChordWith_match (formulas : list ChordFormula) (notes : list string)
    (opts : option DetectOptions) (bassNote : Z) (rest stacked : list Z)
    (formula : ChordFormula) :
  midiNotes_of notes = bassNote :: rest ->
  (2 <= length rest)%nat ->
  (length (noteClasses_of notes) < 9)%nat ->
  getAsStackedChord (noteClasses_of notes) = Ok stacked ->
  find (fun f => String.eqb (pattern f) (patternKey stacked)) formulas = Some formula ->
  detectChordWith getAsStackedChord formulas notes opts
  = Ok (Some (chordNameFor formula stacked bassNote (useSharps_of opts))).
Proof.
  intros Hmidi Hrest Hcount Hstack Hfind. unfold detectChordWith.
  pose proof (midiNotes_of_length notes) as Hlen. rewrite Hmidi in Hlen.
  replace (length notes =? 0)%nat with false
    by (symmetry; apply Nat.eqb_neq; simpl in Hlen; lia).
  fold (midiNotes_of notes). fold (noteClasses_of notes). rewrite Hmidi.
  destruct rest as [|h [|x rest']]; simpl in Hrest; try lia.
  replace (9 <=? length (noteClasses_of notes))%nat with false
    by (symmetry; apply Nat.leb_gt; lia).
  rewrite Hstack. cbn [js_bind]. fold (patternKey stacked). by rewrite Hfind.
Qed.

(** The detector on the sample inputs of the specification. *)
Example detectChord_empty : detectChord [] None = Ok None.
Proof. reflexivity. Qed.

Example detectChord_single_note : detectChord ["C4"] None = Ok (Some "C").
Proof. reflexivity. Qed.

Example detectChord_fifth : detectChord ["C4"; "G4"] None = Ok (Some "Perfect 5th (C, G)").
Proof. reflexivity. Qed.

Example detectChord_major_triad : detectChord ["C4"; "E4"; "G4"] None = Ok (Some "C").
Proof. reflexivity. Qed.

Example detectChord_first_inversion : detectChord ["E4"; "G4"; "C5"] None = Ok (Some "C/E").
Proof. reflexivity. Qed.

(** The augmented triad is named from its lowest note in every voicing:
    the root override makes up for the ordering the resolver happens to
    return for a symmetric set. *)
Example detectChord_augmented :
  detectChord ["C4"; "E4"; "G#4"] None = Ok (Some "C+")
  /\ detectChord ["E4"; "G#4"; "C5"] None = Ok (Some "E+")
  /\ detectChord ["G#4"; "C5"; "E5"] None = Ok (Some "G#+").
Proof. repeat split; reflexivity. Qed.

(** C4, as the code has it. The C minor seventh chord is recognised when its
    notes are spelled with sharps, the only accidental [noteToMidi] reads. *)
Theorem detectChord_Cm7 :
  detectChord ["C4"; "D#4"; "G4"; "A#4"] None = Ok (Some "Cm7")
  /\ detectChord ["C4"; "D#4"; "G4"; "A#4"] (Some {| useFlats := Some true |})
     = Ok (Some "Cm7").
Proof. split; reflexivity. Qed.

(** Spelled with flats, two of the four notes fail to parse: the pitches are
    [-1, -1, 60, 67], the pitch classes [-1, 0, 7], and no template matches. *)
Lemma detectChord_flat_spelling :
  map noteToMidi ["C4"; "Eb4"; "G4"; "Bb4"] = [60; -1; 67; -1]
  /\ detectChord ["C4"; "Eb4"; "G4"; "Bb4"] None = Ok (Some "(, C, G)")
  /\ detectChord ["C4"; "Eb4"; "G4"; "Bb4"] None <> Ok (Some "Cm7").
Proof.
  split; [reflexivity|]. split; [reflexivity|].
  intros E. vm_compute in E. discriminate E.
Qed.

(** ** The database after module initialisation *)

Lemma module_init_value : module_init = Ok CHORD_FORMULAS.
Proof. vm_compute. reflexivity. Qed.

Lemma defineChord_appends (def : string * string) (formula : ChordFormula) :
  defineChord (fst def) (snd def) [] = Ok [formula] -> appends def formula.
Proof.
  intros H formulas. unfold defineChord in *.
  destruct (getAsStackedChord _) as [stacked|]; [|discriminate].
  cbn [js_bind] in *. injection H as <-. reflexivity.
Qed.

(** Templates selected by the lookup of [detectChord] come from the database. *)
Lemma find_formula_In (formulas : list ChordFormula) (key : string) (formula : ChordFormula) :
  find (fun f => String.eqb (pattern f) key) formulas = Some formula ->
  In formula formulas /\ pattern formula = key.
Proof.
  intros H. apply find_some in H as [Hin Heq]. split; [exact Hin|].
  by apply String.eqb_eq.
Qed.

(** ** Feeding the definitions back *)

Lemma result_is_true (expected : string) (r : js_result (option string)) :
  result_is expected r = true -> r = Ok (Some expected).
Proof.
  destruct r as [[s|]|]; simpl; try discriminate.
  intros H. apply String.eqb_eq in H. by subst.
Qed.

(** C9, as the code has it. Every definition except "5", "m13" and
    "7(b9)(#11)", fed back in any single octave, is named "C" followed by
    its display name. *)
Theorem template_roundtrip (octave : string) (def : string * string) :
  In octave octave_digits ->
  In def top_level_definitions ->
  ~ In (fst def) roundtrip_exceptions ->
  detectChord (templateNotes octave (snd def)) None = Ok (Some ("C" ++ fst def)%string)
  /\ ends_with (fst def) ("C" ++ fst def) = true.
Proof.
  intros Hoct Hdef Hexc.
  assert (Hall : forallb (fun o => forallb (roundtrip_check o) top_level_definitions)
                   octave_digits = true) by (vm_compute; reflexivity).
  rewrite forallb_forall in Hall. specialize (Hall octave Hoct).
  rewrite forallb_forall in Hall. specialize (Hall def Hdef).
  unfold roundtrip_check in Hall. apply orb_true_iff in Hall as [Hex|Hok].
  - exfalso. apply Hexc. apply existsb_exists in Hex as (s & Hs & Heq).
    apply String.eqb_eq in Heq. by subst.
  - split; [by apply result_is_true|].
    assert (Hends : forallb (fun d => ends_with (fst d) ("C" ++ fst d))
                      top_level_definitions = true) by (vm_compute; reflexivity).
    rewrite forallb_forall in Hends. by apply Hends.
Qed.

Lemma template_roundtrip_witness :
  detectChord (templateNotes "4" (snd ("m7", "c,eb,g,bb"))) None
  = Ok (Some ("C" ++ fst ("m7", "c,eb,g,bb"))%string)
  /\ ends_with (fst ("m7", "c,eb,g,bb")) ("C" ++ fst ("m7", "c,eb,g,bb")) = true.
Proof.
  apply template_roundtrip.
  - simpl. tauto.
  - simpl. tauto.
  - simpl. intros [H | [H | [H | []]]]; discriminate H.
Defined.

(** The two-note definition "5" is answered by the interval branch, which
    comes before the database lookup. *)
Lemma template_roundtrip_power_chord :
  In ("5", "c,g") top_level_definitions
  /\ templateNotes "4" "c,g" = ["C4"; "G4"]
  /\ detectChord (templateNotes "4" "c,g") None = Ok (Some "Perfect 5th (C, G)")
  /\ ends_with "5" "Perfect 5th (C, G)" = false.
Proof.
  split; [simpl; tauto|]. repeat split; reflexivity.
Qed.

(** "7(b9)(#11)" is its own transposition by a tritone: met in ascending
    order its notes stack from F#, so F# is taken for the root. *)
Lemma template_roundtrip_tritone :
  In ("7(b9)(#11)", "c,e,g,bb,db,f#") top_level_definitions
  /\ detectChord (templateNotes "4" "c,e,g,bb,db,f#") None
     = Ok (Some "F#7(b9)(#11)/C").
Proof. split; [simpl; tauto|reflexivity]. Qed.

(** "m13" has the interval pattern of the seven-note "13" defined before it
    (both are the diatonic collection), and the lookup returns the first
    template with a pattern. *)
Lemma template_roundtrip_m13 :
  In ("m13", "c,eb,g,bb,d,f,a") top_level_definitions
  /\ CHORD_FORMULAS !! 31%nat
     = Some {| name := "13"; pattern := "1,2,2,1,2,2"; rootIndex := 5 |}
  /\ CHORD_FORMULAS !! 40%nat
     = Some {| name := "m13"; pattern := "1,2,2,1,2,2"; rootIndex := 2 |}
  /\ detectChord (templateNotes "4" "c,eb,g,bb,d,f,a") None = Ok (Some "F13/C").
Proof. split; [simpl; tauto|]. repeat split; reflexivity. Qed.

(** ** Sort keys determine interval patterns *)

Lemma split_from_comma_free (s : string) : forall cur t,
  comma_free s ->
  split_from "," cur (s ++ t) = split_from "," (cur ++ s) t.
Proof.
  induction s as [|c s IH]; intros cur t Hs.
  - by rewrite string_app_nil_r.
  - destruct Hs as [Hc Hs]. rewrite string_app_cons. simpl split_from.
    destruct (Ascii.eqb_spec c ","); [contradiction|].
    rewrite IH by exact Hs. f_equal.
    rewrite string_app_assoc. by rewrite string_app_cons.
Qed.

Lemma split_join (l : list string) :
  l <> [] -> Forall comma_free l -> split "," (join "," l) = l.
Proof.
  intros Hne Hall. unfold split.
  induction Hall as [|s rest Hs Hrest IH]; [contradiction|].
  destruct rest as [|s2 rest'].
  - simpl join. rewrite <- (string_app_nil_r s) at 1.
    by rewrite split_from_comma_free.
  - change (join "," (s :: s2 :: rest'))
      with (s ++ String "," (join "," (s2 :: rest')))%string.
    rewrite split_from_comma_free by exact Hs.
    simpl split_from. simpl String.append. f_equal. by apply IH.
Qed.

Lemma string_of_uint_comma_free (d : Decimal.uint) :
  comma_free (NilEmpty.string_of_uint d).
Proof. induction d; simpl; try split; try discriminate; auto. Qed.

Lemma string_of_Z_comma_free (z : Z) : comma_free (string_of_Z z).
Proof.
  unfold string_of_Z, NilZero.string_of_int, NilZero.string_of_uint.
  destruct (Z.to_int z) as [d|d]; destruct d; simpl; repeat split;
    try discriminate; apply string_of_uint_comma_free.
Qed.

Lemma string_of_Z_inj (a b : Z) : string_of_Z a = string_of_Z b -> a = b.
Proof.
  unfold string_of_Z. intros H.
  assert (Hint : forall z, NilZero.int_of_string (NilZero.string_of_int (Z.to_int z))
                           = Some (Z.to_int z)).
  { intros z. apply NilZero.isi; destruct z; simpl; try discriminate;
      intros [= E]; by apply DecimalPos.Unsigned.to_uint_nonnil in E. }
  pose proof (Hint a) as Ha. rewrite H, Hint in Ha. injection Ha as Ha.
  by rewrite <- (DecimalZ.of_to a), <- (DecimalZ.of_to b), Ha.
Qed.

Lemma split_patternStr_of (l : list Z) :
  l <> [] -> split "," (patternStr_of l) = map string_of_Z l.
Proof.
  intros Hl. apply split_join; [by destruct l|].
  apply List.Forall_forall. intros s Hs. apply in_map_iff in Hs as (z & <- & _).
  apply string_of_Z_comma_free.
Qed.

Lemma patternStr_of_inj (p q : list Z) :
  p <> [] -> q <> [] -> patternStr_of p = patternStr_of q -> p = q.
Proof.
  intros Hp Hq H.
  apply (f_equal (split ",")) in H. rewrite !split_patternStr_of in H by assumption.
  clear Hp Hq. revert q H.
  induction p as [|a p IH]; intros [|b q] H; try discriminate; [reflexivity|].
  simpl in H. injection H as Hab Hpq. f_equal; [by apply string_of_Z_inj|by apply IH].
Qed.

Lemma getIntervalPattern_nonempty (chord : list Z) : getIntervalPattern chord <> [].
Proof.
  unfold getIntervalPattern. destruct chord as [|a [|b rest]]; simpl; discriminate.
Qed.

Lemma patternKey_inj (p q : list Z) :
  patternKey p = patternKey q -> getIntervalPattern p = getIntervalPattern q.
Proof. apply patternStr_of_inj; apply getIntervalPattern_nonempty. Qed.

(** ** Orderings with the same interval pattern *)

Lemma normalize_interval_mod (z : Z) :
  -12 < z < 12 -> normalize_interval z = z mod 12.
Proof.
  intros Hz. rewrite normalize_interval_spec.
  destruct (Z.ltb_spec z 0); [reflexivity|]. by rewrite Z.mod_small by lia.
Qed.

Lemma transpose_congr (c d pc : Z) : c mod 12 = d mod 12 -> transpose c pc = transpose d pc.
Proof.
  intros H. unfold transpose.
  rewrite (Z.add_mod pc c), (Z.add_mod pc d) by lia. by rewrite H.
Qed.

Lemma intervals_transposed (p : list Z) : forall q a b,
  Forall is_pitch_class (a :: p) -> Forall is_pitch_class (b :: q) ->
  length p = length q ->
  intervals (a :: p) = intervals (b :: q) ->
  b :: q = map (transpose (b - a)) (a :: p).
Proof.
  induction p as [|a' p' IH]; intros q a b Hp Hq Hlen Hint.
  - destruct q; [|discriminate]. simpl. f_equal. unfold transpose.
    inversion Hq as [|? ? Hb _]; subst. unfold is_pitch_class in Hb.
    replace (a + (b - a)) with b by lia. by rewrite Z.mod_small by lia.
  - destruct q as [|b' q']; [discriminate|].
    change (intervals (a :: a' :: p'))
      with (normalize_interval (a' - a) :: intervals (a' :: p')) in Hint.
    change (intervals (b :: b' :: q'))
      with (normalize_interval (b' - b) :: intervals (b' :: q')) in Hint.
    injection Hint as Hhead Htail.
    inversion Hp as [|? ? Ha Hp']; subst. inversion Hq as [|? ? Hb Hq']; subst.
    inversion Hp' as [|? ? Ha' _]; subst. inversion Hq' as [|? ? Hb' _]; subst.
    unfold is_pitch_class in Ha, Hb, Ha', Hb'.
    rewrite !normalize_interval_mod in Hhead by lia.
    specialize (IH q' a' b' Hp' Hq' ltac:(simpl in Hlen; lia) Htail).
    change (map (transpose (b - a)) (a :: a' :: p'))
      with (transpose (b - a) a :: map (transpose (b - a)) (a' :: p')).
    f_equal.
    + unfold transpose. replace (a + (b - a)) with b by lia.
      by rewrite Z.mod_small by lia.
    + rewrite IH. apply map_ext. intros pc. apply transpose_congr.
      replace (b' - a') with ((b' - b) + (b - a) - (a' - a)) by lia.
      rewrite Zminus_mod, Zplus_mod, <- Hhead, <- Zplus_mod, <- Zminus_mod.
      f_equal. lia.
Qed.

Lemma transpose_0 (l : list Z) : Forall is_pitch_class l -> map (transpose 0) l = l.
Proof.
  induction 1 as [|pc l Hpc _ IH]; [reflexivity|]. simpl. rewrite IH. f_equal.
  unfold transpose, is_pitch_class in *. rewrite Z.add_0_r. by apply Z.mod_small; lia.
Qed.

(** Two orderings of one set of pitch classes with the same sort key differ
    by a transposition that maps the set to itself. *)
Lemma same_key_transposed (l p q : list Z) :
  Forall is_pitch_class l -> Permutation l p -> Permutation l q ->
  (2 <= length l)%nat ->
  patternKey p = patternKey q ->
  exists c, 0 <= c < 12 /\ transposition_invariant c l /\ q = map (transpose c) p.
Proof.
  intros Hpc Hp Hq Hlen Hkey. apply patternKey_inj in Hkey.
  assert (Hlp : length p = length l) by (by rewrite Hp).
  assert (Hlq : length q = length l) by (by rewrite Hq).
  unfold getIntervalPattern in Hkey.
  replace (length p <? 2)%nat with false in Hkey by (symmetry; apply Nat.ltb_ge; lia).
  replace (length q <? 2)%nat with false in Hkey by (symmetry; apply Nat.ltb_ge; lia).
  destruct p as [|a p']; [simpl in Hlp; lia|]. destruct q as [|b q']; [simpl in Hlq; lia|].
  assert (Hpp : Forall is_pitch_class (a :: p')) by (by rewrite <- Hp).
  assert (Hqq : Forall is_pitch_class (b :: q')) by (by rewrite <- Hq).
  pose proof (intervals_transposed p' q' a b Hpp Hqq ltac:(simpl in *; lia) Hkey) as Htr.
  exists ((b - a) mod 12). split; [apply Z.mod_pos_bound; lia|].
  assert (Hsame : map (transpose ((b - a) mod 12)) (a :: p') = map (transpose (b - a)) (a :: p')).
  { apply map_ext. intros pc. apply transpose_congr. by rewrite Z.mod_mod by lia. }
  split; [|by rewrite Hsame].
  intros pc Hin. apply (Permutation_in _ (Permutation_sym Hq)). rewrite Htr, <- Hsame.
  apply in_map. by apply (Permutation_in _ Hp).
Qed.

(** C2, as the code has it. For two lists of the same distinct pitch
    classes the resolver returns orderings with the same energy and the same
    interval pattern (the key of the database lookup).  The second ordering
    is the first one transposed by an interval that maps the set to itself;
    when no interval of 1 to 11 semitones does, the orderings are equal. *)
Theorem getAsStackedChord_same_set (l1 l2 : list Z) :
  NoDup l1 ->
  Forall is_pitch_class l1 ->
  Permutation l1 l2 ->
  exists s1 s2,
    getAsStackedChord l1 = Ok s1 /\ getAsStackedChord l2 = Ok s2
    /\ energy s1 = energy s2
    /\ patternKey s1 = patternKey s2
    /\ getIntervalPattern s1 = getIntervalPattern s2
    /\ (exists c, 0 <= c < 12 /\ transposition_invariant c l1 /\ s2 = map (transpose c) s1)
    /\ ((forall c, 1 <= c <= 11 -> ~ transposition_invariant c l1) -> s1 = s2).
Proof.
  intros _ Hpc Hperm.
  assert (Hshift : forall s1 s2 : list Z, Forall is_pitch_class s1 ->
            (exists c, 0 <= c < 12 /\ transposition_invariant c l1 /\ s2 = map (transpose c) s1) ->
            (forall c, 1 <= c <= 11 -> ~ transposition_invariant c l1) -> s1 = s2).
  { intros s1 s2 Hs1 (c & Hc & Hinv & ->) Hnone.
    destruct (Z.eq_dec c 0) as [-> | Hne]; [by rewrite transpose_0|].
    exfalso. apply (Hnone c); [lia|exact Hinv]. }
  destruct (Nat.le_gt_cases (length l1) 1) as [Hle|Hgt].
  - assert (l2 = l1) as ->.
    { destruct l1 as [|a [|? ?]]; simpl in Hle; try lia.
      - by apply Permutation_nil in Hperm.
      - by apply Permutation_length_1_inv in Hperm. }
    destruct (getAsStackedChord_total l1) as (s & Hs & _).
    assert (s = l1) as ->.
    { unfold getAsStackedChord in Hs.
      replace (length l1 <=? 1)%nat with true in Hs by (symmetry; apply Nat.leb_le; lia).
      congruence. }
    assert (Hex : exists c, 0 <= c < 12 /\ transposition_invariant c l1
                            /\ l1 = map (transpose c) l1).
    { exists 0. split; [lia|]. split; [|by rewrite transpose_0].
      intros pc Hin. rewrite <- (transpose_0 l1 Hpc). by apply in_map. }
    exists l1, l1. split; [exact Hs|]. split; [exact Hs|].
    do 3 (split; [reflexivity|]). split; [exact Hex|]. by apply Hshift.
  - destruct (getAsStackedChord_spec l1) as (s1 & Hs1 & Hp1 & Hmin1); [lia|].
    destruct (getAsStackedChord_spec l2) as (s2 & Hs2 & Hp2 & Hmin2).
    { rewrite <- Hperm. lia. }
    assert (Hp2' : Permutation l1 s2) by (by rewrite Hperm).
    assert (Hp1' : Permutation l2 s1) by (by rewrite <- Hperm).
    destruct (Hmin1 s2 Hp2') as [Hle1 Hkey1]. destruct (Hmin2 s1 Hp1') as [Hle2 Hkey2].
    assert (Hen : energy s1 = energy s2) by lia.
    assert (Hkey : patternKey s1 = patternKey s2).
    { apply String.leb_antisym; [apply Hkey1|apply Hkey2]; lia. }
    assert (Hex : exists c, 0 <= c < 12 /\ transposition_invariant c l1
                            /\ s2 = map (transpose c) s1)
      by (by apply (same_key_transposed l1 s1 s2); try lia).
    exists s1, s2. split; [exact Hs1|]. split; [exact Hs2|].
    split; [exact Hen|]. split; [exact Hkey|].
    split; [by apply patternKey_inj|]. split; [exact Hex|].
    apply Hshift; [by rewrite <- Hp1|exact Hex].
Qed.

Lemma getAsStackedChord_same_set_witness :
  exists s1 s2,
    getAsStackedChord [0; 4; 7] = Ok s1 /\ getAsStackedChord [7; 0; 4] = Ok s2
    /\ energy s1 = energy s2
    /\ patternKey s1 = patternKey s2
    /\ getIntervalPattern s1 = getIntervalPattern s2
    /\ (exists c, 0 <= c < 12 /\ transposition_invariant c [0; 4; 7]
                  /\ s2 = map (transpose c) s1)
    /\ ((forall c, 1 <= c <= 11 -> ~ transposition_invariant c [0; 4; 7]) -> s1 = s2).
Proof.
  apply getAsStackedChord_same_set.
  - apply NoDup_ListNoDup. repeat constructor; simpl; intuition lia.
  - repeat constructor; unfold is_pitch_class; lia.
  - change [7; 0; 4] with ([7] ++ [0; 4]). change [0; 4; 7] with ([0; 4] ++ [7]).
    apply Permutation_app_comm.
Defined.

(** ** Naming a matched chord *)

(** A template whose pattern is the key of an ordering has its root inside
    that ordering. *)
Lemma matched_root_defined (stacked : list Z) (formula : ChordFormula) :
  In formula CHORD_FORMULAS ->
  pattern formula = patternKey stacked ->
  exists nominalRoot, js_index stacked (rootIndex formula) = Some nominalRoot.
Proof.
  intros Hin Hkey.
  assert (Hall : forallb formula_well_formed CHORD_FORMULAS = true)
    by (vm_compute; reflexivity).
  rewrite forallb_forall in Hall. specialize (Hall formula Hin).
  unfold formula_well_formed in Hall.
  apply andb_true_iff in Hall as [Hall Hzero]. apply andb_true_iff in Hall as [Hlo Hhi].
  apply Z.leb_le in Hlo, Hhi. apply negb_true_iff, String.eqb_neq in Hzero.
  rewrite Hkey in Hhi, Hzero. unfold patternKey in Hhi.
  rewrite split_patternStr_of in Hhi by apply getIntervalPattern_nonempty.
  rewrite length_map in Hhi. unfold patternKey, getIntervalPattern in Hhi, Hzero.
  destruct (Nat.ltb_spec (length stacked) 2) as [Hshort|Hlong].
  - exfalso. by apply Hzero.
  - rewrite intervals_length in Hhi. unfold js_index.
    replace (rootIndex formula <? 0) with false by (symmetry; apply Z.ltb_ge; lia).
    apply lookup_lt_is_Some_2. lia.
Qed.

(** The name composed on a match, once the root is known to exist. *)
Lemma chordNameFor_compose (formula : ChordFormula) (stacked : list Z)
    (bassNote : Z) (useSharps : bool) (nominalRoot : Z) :
  js_index stacked (rootIndex formula) = Some nominalRoot ->
  let bassNoteClass := Z.rem bassNote 12 in
  let rootNote :=
    if decide (name formula = "dim7" \/ name formula = "+")
    then bassNoteClass else nominalRoot in
  let slash :=
    if decide (rootNote = bassNoteClass) then ""
    else ("/" ++ midiToNoteName bassNoteClass useSharps)%string in
  chordNameFor formula stacked bassNote useSharps
  = (midiToNoteName rootNote useSharps ++ name formula ++ slash)%string.
Proof.
  intros Hroot bassNoteClass rootNote slash.
  unfold chordNameFor. fold bassNoteClass. rewrite Hroot.
  assert (Hsel : (if String.eqb (name formula) "dim7" || String.eqb (name formula) "+"
                  then Some bassNoteClass else Some nominalRoot) = Some rootNote).
  { unfold rootNote.
    destruct (String.eqb_spec (name formula) "dim7") as [E1|N1];
      destruct (String.eqb_spec (name formula) "+") as [E2|N2];
      destruct (decide (name formula = "dim7" \/ name formula = "+")) as [D|D];
      simpl; try reflexivity; tauto. }
  rewrite Hsel. simpl rootName_of. simpl same_note. unfold slash.
  destruct (decide (rootNote = bassNoteClass)) as [D|D].
  - replace (rootNote =? bassNoteClass) with true by (symmetry; by apply Z.eqb_eq).
    simpl negb. cbv iota. by rewrite string_app_nil_r.
  - replace (rootNote =? bassNoteClass) with false by (symmetry; by apply Z.eqb_neq).
    simpl negb. cbv iota. by rewrite string_app_assoc.
Qed.

(** C3. On a database match for three or more notes the name is the root
    name followed by the template's display name; the root is the element of
    the canonical ordering at the template's [rootIndex], except for the
    templates named "dim7" and "+", whose root is the bass pitch class; and
    "/" followed by the bass name is appended exactly when the root differs
    from the bass pitch class. *)
Theorem detectChord_match_name (notes : list string) (opts : option DetectOptions)
    (bassNote : Z) (rest stacked : list Z) (formula : ChordFormula) :
  midiNotes_of notes = bassNote :: rest ->
  (2 <= length rest)%nat ->
  (length (noteClasses_of notes) < 9)%nat ->
  getAsStackedChord (noteClasses_of notes) = Ok stacked ->
  find (fun f => String.eqb (pattern f) (patternKey stacked)) CHORD_FORMULAS = Some formula ->
  exists nominalRoot,
    js_index stacked (rootIndex formula) = Some nominalRoot
    /\ let useSharps := useSharps_of opts in
       let bassNoteClass := Z.rem bassNote 12 in
       let rootNote :=
         if decide (name formula = "dim7" \/ name formula = "+")
         then bassNoteClass else nominalRoot in
       let slash :=
         if decide (rootNote = bassNoteClass) then ""
         else ("/" ++ midiToNoteName bassNoteClass useSharps)%string in
       detectChord notes opts
       = Ok (Some (midiToNoteName rootNote useSharps ++ name formula ++ slash)%string).
Proof.
  intros Hmidi Hrest Hcount Hstack Hfind.
  destruct (find_formula_In _ _ _ Hfind) as [Hin Hkey].
  destruct (matched_root_defined stacked formula Hin Hkey) as [nominalRoot Hroot].
  exists nominalRoot. split; [exact Hroot|].
  intros useSharps bassNoteClass rootNote slash.
  unfold detectChord.
  rewrite (detectChordWith_match _ _ _ _ _ _ _ Hmidi Hrest Hcount Hstack Hfind).
  do 2 f_equal. by apply chordNameFor_compose.
Qed.

Lemma detectChord_match_name_witness :
  exists nominalRoot,
    js_index [0; 4; 7] (rootIndex {| name := ""; pattern := "4,3"; rootIndex := 0 |})
    = Some nominalRoot
    /\ let useSharps := useSharps_of None in
       let bassNoteClass := Z.rem 64 12 in
       let rootNote :=
         if decide (name {| name := ""; pattern := "4,3"; rootIndex := 0 |} = "dim7"
                    \/ name {| name := ""; pattern := "4,3"; rootIndex := 0 |} = "+")
         then bassNoteClass else nominalRoot in
       let slash :=
         if decide (rootNote = bassNoteClass) then ""
         else ("/" ++ midiToNoteName bassNoteClass useSharps)%string in
       detectChord ["E4"; "G4"; "C5"] None
       = Ok (Some (midiToNoteName rootNote useSharps
                   ++ name {| name := ""; pattern := "4,3"; rootIndex := 0 |} ++ slash)%string).
Proof.
  apply (detectChord_match_name ["E4"; "G4"; "C5"] None 64 [67; 72] [0; 4; 7]
           {| name := ""; pattern := "4,3"; rootIndex := 0 |}).
  - reflexivity.
  - simpl. lia.
  - vm_compute. lia.
  - reflexivity.
  - reflexivity.
Defined.

(** ** The kinds of display string *)

Lemma midiToNoteName_In (midi : Z) (useSharps : bool) :
  In (midiToNoteName midi useSharps) (note_names useSharps).
Proof.
  unfold midiToNoteName, note_names.
  assert (Hidx : (Z.to_nat (Z.rem (Z.rem midi 12 + 12) 12) < 12)%nat).
  { pose proof (Z.rem_bound_abs midi 12 ltac:(lia)) as H1.
    assert (0 <= Z.rem midi 12 + 12) by lia.
    pose proof (Z.rem_bound_pos (Z.rem midi 12 + 12) 12 ltac:(lia) ltac:(lia)). lia. }
  destruct useSharps; apply nth_In; exact Hidx.
Qed.

Lemma getIntervalName_In (semitones : Z) :
  In (default "Interval" (getIntervalName semitones)) interval_names.
Proof.
  unfold getIntervalName.
  generalize (fold_down (Z.to_nat (Z.abs semitones)) (Z.abs semitones)) as diff.
  intros [|p|p]; [simpl; tauto| |simpl; tauto].
  do 5 (try destruct p as [p|p|]); simpl; tauto.
Qed.

Lemma table_entry_In (useSharps : bool) (n : Z) :
  let entry := default "" (js_index (if useSharps then SHARP_NOTES else FLAT_NOTES) n) in
  entry = "" \/ In entry (note_names useSharps).
Proof.
  unfold js_index, note_names. destruct (n <? 0); [by left|].
  destruct ((if useSharps then SHARP_NOTES else FLAT_NOTES) !! Z.to_nat n) as [e|] eqn:E;
    [|by left].
  right. simpl. apply list_elem_of_In, list_elem_of_lookup. eauto.
Qed.

(** Every string [detectChord] returns is of one of the five kinds. *)
Lemma detectChord_display_form (notes : list string) (opts : option DetectOptions)
    (s : string) :
  detectChord notes opts = Ok (Some s) -> display_form (useSharps_of opts) s.
Proof.
  unfold detectChord, detectChordWith.
  destruct notes as [|n notes']; [discriminate|]. simpl Nat.eqb. cbv iota.
  fold (midiNotes_of (n :: notes')). fold (noteClasses_of (n :: notes')).
  destruct (midiNotes_of (n :: notes')) as [|b [|h [|x rest]]]; [discriminate|..].
  - intros [= <-]. left. apply midiToNoteName_In.
  - intros [= <-]. right. left.
    exists (default "Interval" (getIntervalName (h - b))),
      (midiToNoteName b (useSharps_of opts)), (midiToNoteName h (useSharps_of opts)).
    split; [apply getIntervalName_In|]. by repeat split; try apply midiToNoteName_In.
  - destruct (9 <=? length (noteClasses_of (n :: notes')))%nat.
    + intros [= <-]. right. right. left.
      exists (midiToNoteName b (useSharps_of opts)). split; [apply midiToNoteName_In|reflexivity].
    + destruct (getAsStackedChord_total (noteClasses_of (n :: notes')))
        as (stacked & -> & _). cbn [js_bind]. fold (patternKey stacked).
      destruct (find (fun f => String.eqb (pattern f) (patternKey stacked)) CHORD_FORMULAS)
        as [formula|] eqn:Hfind.
      * intros [= <-]. right. right. right. left.
        destruct (find_formula_In _ _ _ Hfind) as [Hin Hkey].
        destruct (matched_root_defined stacked formula Hin Hkey) as [nominalRoot Hroot].
        rewrite (chordNameFor_compose formula stacked b (useSharps_of opts) nominalRoot Hroot).
        eexists formula, _, _. split; [exact Hin|]. split; [apply midiToNoteName_In|].
        split; [|reflexivity].
        match goal with |- context [decide (?r = ?c)] => destruct (decide (r = c)) end;
          [by left|right].
        eexists. split; [apply midiToNoteName_In|reflexivity].
      * intros [= <-]. right. right. right. right. unfold fallbackName.
        eexists. split; [|reflexivity].
        apply List.Forall_forall. intros e He. apply in_map_iff in He as (pc & <- & _).
        apply table_entry_In.
Qed.

Lemma has_char_app (c : ascii) (s t : string) :
  has_char c (s ++ t) = has_char c s || has_char c t.
Proof.
  induction s as [|a s IH]; [reflexivity|].
  rewrite string_app_cons. simpl. rewrite IH. by rewrite orb_assoc.
Qed.

Lemma has_char_join (c : ascii) (sep : string) (l : list string) :
  has_char c sep = false -> Forall (fun e => has_char c e = false) l ->
  has_char c (join sep l) = false.
Proof.
  intros Hsep. induction 1 as [|e rest He _ IH]; [reflexivity|].
  destruct rest as [|e2 rest']; [exact He|].
  change (join sep (e :: e2 :: rest')) with (e ++ sep ++ join sep (e2 :: rest'))%string.
  by rewrite !has_char_app, He, Hsep, IH.
Qed.

Lemma prefix_has_char (c : ascii) (sub : string) : forall s,
  String.prefix sub s = true -> has_char c sub = true -> has_char c s = true.
Proof.
  induction sub as [|a sub IH]; intros [|b s] Hpre Hc; simpl in *; try discriminate.
  destruct (ascii_dec a b) as [->|]; [|discriminate].
  apply orb_true_iff in Hc as [Hc|Hc]; [by rewrite Hc|].
  rewrite (IH s Hpre Hc). apply orb_true_r.
Qed.

Lemma contains_has_char (c : ascii) (sub s : string) :
  has_char c sub = true -> has_char c s = false -> contains sub s = false.
Proof.
  intros Hsub. induction s as [|b s IH]; intros Hs.
  - destruct sub; [discriminate|reflexivity].
  - simpl in Hs. apply orb_false_iff in Hs as [Hb Hs].
    change (contains sub (String b s))
      with (String.prefix sub (String b s) || contains sub s).
    rewrite (IH Hs), orb_false_r.
    destruct (String.prefix sub (String b s)) eqn:Hpre; [|reflexivity].
    pose proof (prefix_has_char c sub _ Hpre Hsub) as H. simpl in H.
    rewrite Hb, Hs in H. discriminate.
Qed.

(** No display string mentions "m(maj9)" or "m7(b9)". *)
Lemma display_form_clean (useSharps : bool) (s : string) :
  display_form useSharps s -> clean s = true.
Proof.
  assert (Hnames : forallb clean (note_names useSharps) = true)
    by (destruct useSharps; vm_compute; reflexivity).
  assert (Hint : forallb clean (interval_outputs useSharps) = true)
    by (destruct useSharps; vm_compute; reflexivity).
  assert (Hsoup : forallb clean (soup_outputs useSharps) = true)
    by (destruct useSharps; vm_compute; reflexivity).
  assert (Hchord : forallb clean (chord_outputs useSharps) = true)
    by (destruct useSharps; vm_compute; reflexivity).
  rewrite forallb_forall in Hnames, Hint, Hsoup, Hchord.
  intros [H | [H | [H | [H | H]]]].
  - by apply Hnames.
  - destruct H as (interval & low & high & Hi & Hl & Hh & ->). apply Hint.
    unfold interval_outputs. apply in_flat_map. exists interval. split; [exact Hi|].
    apply in_flat_map. exists low. split; [exact Hl|].
    apply in_map_iff. by exists high.
  - destruct H as (bass & Hb & ->). apply Hsoup. unfold soup_outputs.
    apply in_map_iff. by exists bass.
  - destruct H as (formula & root & slash & Hf & Hr & Hslash & ->). apply Hchord.
    unfold chord_outputs. apply in_flat_map. exists formula. split; [exact Hf|].
    apply in_flat_map. exists root. split; [exact Hr|].
    destruct Hslash as [-> | (bass & Hb & ->)]; [by left|right].
    apply in_map_iff. by exists bass.
  - destruct H as (entries & Hentries & ->).
    assert (Hm : has_char "m" ("(" ++ join ", " entries ++ ")") = false).
    { rewrite !has_char_app. rewrite has_char_join; [reflexivity|reflexivity|].
      eapply Forall_impl; [exact Hentries|]. intros e [-> | He]; [reflexivity|].
      assert (Hall : forallb (fun e => negb (has_char "m" e)) (note_names useSharps) = true)
        by (destruct useSharps; vm_compute; reflexivity).
      rewrite forallb_forall in Hall. by apply negb_true_iff, Hall. }
    unfold clean. by rewrite !(contains_has_char "m") by (reflexivity || exact Hm).
Qed.

(** C6. [detectChord] returns [null] exactly for the empty list; for every
    nonempty list it returns a string, never throws, and the string is a
    note name, an interval description, a "Note Soup" label, a chord name or
    the parenthesised fallback. *)
Theorem detectChord_null_iff_empty (notes : list string) (opts : option DetectOptions) :
  (detectChord notes opts = Ok None <-> notes = [])
  /\ (notes <> [] ->
      exists s, detectChord notes opts = Ok (Some s)
                /\ display_form (useSharps_of opts) s).
Proof.
  assert (Hsome : notes <> [] -> exists s, detectChord notes opts = Ok (Some s))
    by apply detectChordWith_some.
  split; [split|].
  - intros Hnull. destruct notes as [|n notes']; [reflexivity|].
    destruct Hsome as [s Hs]; [discriminate|]. congruence.
  - intros ->. reflexivity.
  - intros Hne. destruct (Hsome Hne) as [s Hs]. exists s. split; [exact Hs|].
    by apply (detectChord_display_form notes).
Qed.

Lemma detectChord_null_iff_empty_witness :
  (detectChord ["C4"] None = Ok None <-> ["C4"] = [])
  /\ (["C4"] <> [] ->
      exists s, detectChord ["C4"] None = Ok (Some s)
                /\ display_form (useSharps_of None) s).
Proof. apply detectChord_null_iff_empty. Defined.

(** C10. Module initialisation leaves in [CHORD_FORMULAS] exactly the
    templates appended by the 60 top-level [defineChord] calls, in that
    order; the guard of the supplementary block is false, so its three
    definitions are not added; no template is named "m(maj9)" or "m7(b9)",
    "Maj7(#5)" occurs once; the lookup of [detectChord], which only reads
    the database, never selects a template with one of those two names, and
    no string [detectChord] returns contains either of them. *)
Theorem chord_formulas_after_init :
  module_init = Ok CHORD_FORMULAS
  /\ define_all top_level_definitions [] = Ok CHORD_FORMULAS
  /\ length top_level_definitions = 60%nat
  /\ length CHORD_FORMULAS = 60%nat
  /\ Forall2 appends top_level_definitions CHORD_FORMULAS
  /\ map name CHORD_FORMULAS = map fst top_level_definitions
  /\ supplementary_guard CHORD_FORMULAS = false
  /\ ~ In "m(maj9)" (map name CHORD_FORMULAS)
  /\ ~ In "m7(b9)" (map name CHORD_FORMULAS)
  /\ length (filter (fun f => String.eqb (name f) "Maj7(#5)") CHORD_FORMULAS) = 1%nat
  /\ (forall key formula,
        find (fun f => String.eqb (pattern f) key) CHORD_FORMULAS = Some formula ->
        name formula <> "m(maj9)" /\ name formula <> "m7(b9)")
  /\ (forall notes opts s,
        detectChord notes opts = Ok (Some s) ->
        contains "m(maj9)" s = false /\ contains "m7(b9)" s = false).
Proof.
  assert (Hnames : forall s, In s (map name CHORD_FORMULAS) ->
                     s <> "m(maj9)" /\ s <> "m7(b9)").
  { intros s Hs. apply list_elem_of_In in Hs. revert s Hs. apply Forall_forall.
    vm_compute. repeat constructor; discriminate. }
  split; [apply module_init_value|].
  split; [vm_compute; reflexivity|].
  split; [reflexivity|]. split; [reflexivity|].
  split.
  { unfold top_level_definitions, CHORD_FORMULAS.
    repeat (apply List.Forall2_cons; [apply defineChord_appends; vm_compute; reflexivity|]).
    apply List.Forall2_nil. }
  split; [reflexivity|]. split; [reflexivity|].
  split; [intros H; by destruct (Hnames _ H)|].
  split; [intros H; by destruct (Hnames _ H)|].
  split; [reflexivity|]. split.
  - intros key formula Hfind. apply find_formula_In in Hfind as [Hin _].
    apply Hnames. by apply in_map.
  - intros notes opts s Hs. apply detectChord_display_form, display_form_clean in Hs.
    unfold clean in Hs. apply andb_true_iff in Hs as [H1 H2].
    by apply negb_true_iff in H1, H2.
Qed.

(** * Further properties of the detector *)

(** ** Note names and pitches *)

Lemma note_index_mod (midi : Z) : Z.rem (Z.rem midi 12 + 12) 12 = midi mod 12.
Proof.
  pose proof (Z.rem_bound_abs midi 12 ltac:(lia)) as Hb.
  rewrite Z.rem_mod_nonneg by lia.
  rewrite (Z.quot_rem' midi 12) at 2.
  replace (12 * (midi ÷ 12) + Z.rem midi 12)
    with ((Z.rem midi 12 + 12) + (midi ÷ 12 - 1) * 12) by lia.
  by rewrite Z_mod_plus_full.
Qed.

(** X1. For every integer pitch, negative ones included, the name is the
    entry of the chosen table at the floor remainder [midi mod 12]; it is
    the same in every octave. *)
Theorem midiToNoteName_mod (midi : Z) (useSharps : bool) :
  0 <= midi mod 12 <= 11
  /\ note_names useSharps !! Z.to_nat (midi mod 12) = Some (midiToNoteName midi useSharps)
  /\ forall k, midiToNoteName (midi + 12 * k) useSharps = midiToNoteName midi useSharps.
Proof.
  assert (Hr : forall m, 0 <= m mod 12 <= 11)
    by (intros m; pose proof (Z.mod_pos_bound m 12 ltac:(lia)); lia).
  split; [apply Hr|]. split.
  - unfold midiToNoteName. rewrite note_index_mod.
    assert (Hlen : (Z.to_nat (midi mod 12) < length (note_names useSharps))%nat).
    { specialize (Hr midi). destruct useSharps; simpl; lia. }
    destruct (lookup_lt_is_Some_2 _ _ Hlen) as [s Hs]. rewrite Hs. f_equal.
    symmetry. apply nth_lookup_Some with (d := "undefined") in Hs. exact Hs.
  - intros k. unfold midiToNoteName. rewrite !note_index_mod.
    replace (midi + 12 * k) with (midi + k * 12) by lia. by rewrite Z_mod_plus_full.
Qed.

Lemma noteToMidi_well_formed (name : string) (d : ascii) :
  In name SHARP_NOTES -> is_digit d = true ->
  noteToMidi (name ++ String d EmptyString)
  = 12 * (digit_value d + 1) + indexOf String.eqb name SHARP_NOTES
  /\ 0 <= digit_value d <= 9
  /\ 0 <= indexOf String.eqb name SHARP_NOTES <= 11
  /\ SHARP_NOTES !! Z.to_nat (indexOf String.eqb name SHARP_NOTES) = Some name.
Proof.
  intros Hname Hd.
  assert (Hrange : 0 <= digit_value d <= 9).
  { unfold is_digit in Hd. unfold digit_value.
    apply andb_true_iff in Hd as [H1 H2]. apply Nat.leb_le in H1, H2. lia. }
  unfold noteToMidi. simpl in Hname.
  repeat (destruct Hname as [<- | Hname];
    [ simpl; rewrite Hd; unfold parseInt10; simpl parseInt_from;
      split; [reflexivity|]; split; [exact Hrange|]; vm_compute indexOf;
      split; [lia|reflexivity] |]).
  destruct Hname.
Qed.

(** X2. Parsing a well-formed identifier and naming the result gives the
    name back; the pitch lies in [[12,131]], its octave is the digit, and
    with the flat preference the name is the flat table's entry for the
    same pitch class. *)
Theorem noteToMidi_midiToNoteName (name : string) (d : ascii) :
  In name SHARP_NOTES -> is_digit d = true ->
  let midi := noteToMidi (name ++ String d EmptyString) in
  12 <= midi <= 131
  /\ midi / 12 - 1 = digit_value d
  /\ midiToNoteName midi true = name
  /\ exists pitchClass : nat,
       SHARP_NOTES !! pitchClass = Some name
       /\ FLAT_NOTES !! pitchClass = Some (midiToNoteName midi false).
Proof.
  intros Hname Hd midi.
  destruct (noteToMidi_well_formed name d Hname Hd) as (Hval & Hoct & Hidx & Hlook).
  fold midi in Hval.
  set (idx := indexOf String.eqb name SHARP_NOTES) in *.
  assert (Hmod : midi mod 12 = idx).
  { rewrite Hval. replace (12 * (digit_value d + 1) + idx)
      with (idx + (digit_value d + 1) * 12) by lia.
    rewrite Z_mod_plus_full. apply Z.mod_small. lia. }
  split; [lia|]. split.
  - rewrite Hval. replace (12 * (digit_value d + 1) + idx)
      with (idx + (digit_value d + 1) * 12) by lia.
    rewrite Z_div_plus_full by lia. rewrite Z.div_small by lia. lia.
  - destruct (midiToNoteName_mod midi true) as (_ & Hsharp & _).
    destruct (midiToNoteName_mod midi false) as (_ & Hflat & _).
    rewrite Hmod in Hsharp, Hflat. simpl note_names in Hsharp, Hflat.
    split; [congruence|]. exists (Z.to_nat idx). by split.
Qed.

Lemma noteToMidi_midiToNoteName_witness :
  let midi := noteToMidi ("F#" ++ String "3" EmptyString) in
  12 <= midi <= 131
  /\ midi / 12 - 1 = digit_value "3"
  /\ midiToNoteName midi true = "F#"
  /\ exists pitchClass : nat,
       SHARP_NOTES !! pitchClass = Some "F#"
       /\ FLAT_NOTES !! pitchClass = Some (midiToNoteName midi false).
Proof.
  apply noteToMidi_midiToNoteName.
  - simpl. tauto.
  - reflexivity.
Defined.

(** ** Interval names *)

Lemma fold_down_spec (fuel : nat) : forall diff,
  0 <= diff -> (Z.to_nat diff <= fuel)%nat ->
  fold_down fuel diff = if diff <=? 21 then diff else 10 + (diff - 10) mod 12.
Proof.
  induction fuel as [|fuel IH]; intros diff Hpos Hfuel.
  - assert (diff = 0) as -> by lia. reflexivity.
  - simpl. destruct (Z.ltb_spec 21 diff) as [Hbig|Hsmall].
    + rewrite IH by lia.
      replace (diff <=? 21) with false by (symmetry; apply Z.leb_gt; lia).
      destruct (Z.leb_spec (diff - 12) 21) as [Hlast|Hmore].
      * symmetry. replace (diff - 10) with ((diff - 22) + 1 * 12) by lia.
        rewrite Z_mod_plus_full, Z.mod_small; lia.
      * f_equal. replace (diff - 10) with ((diff - 12 - 10) + 1 * 12) by lia.
        by rewrite Z_mod_plus_full.
    + by replace (diff <=? 21) with true by (symmetry; apply Z.leb_le; lia).
Qed.

(** The distance the [switch] of [getIntervalName] looks at. *)
Lemma getIntervalName_folded (semitones : Z) :
  let folded := if Z.abs semitones <=? 21 then Z.abs semitones
                else 10 + (Z.abs semitones - 10) mod 12 in
  0 <= folded <= 21 /\ getIntervalName semitones = getIntervalName folded.
Proof.
  intros folded.
  assert (Hrange : 0 <= folded <= 21).
  { unfold folded. destruct (Z.leb_spec (Z.abs semitones) 21); [lia|].
    pose proof (Z.mod_pos_bound (Z.abs semitones - 10) 12 ltac:(lia)). lia. }
  split; [exact Hrange|].
  unfold getIntervalName.
  rewrite (fold_down_spec _ (Z.abs semitones)) by lia. fold folded.
  rewrite (fold_down_spec _ (Z.abs folded)) by lia.
  replace (Z.abs folded) with folded by lia.
  by replace (folded <=? 21) with true by (symmetry; apply Z.leb_le; lia).
Qed.

(** X3. [getIntervalName] never returns [null]: every integer distance gets
    one of the 22 catalogued names (so the substitute "Interval" is never
    needed); the sign of the distance is ignored, and a distance beyond 21
    semitones is named as the distance of [[10,21]] with the same remainder
    modulo 12. *)
Theorem getIntervalName_total (semitones : Z) :
  (exists name, getIntervalName semitones = Some name
                /\ In name interval_names /\ name <> "Interval")
  /\ getIntervalName (- semitones) = getIntervalName semitones
  /\ (21 < Z.abs semitones ->
      getIntervalName semitones
      = getIntervalName (10 + (Z.abs semitones - 10) mod 12)).
Proof.
  split; [|split].
  - destruct (getIntervalName_folded semitones) as [Hrange ->].
    set (folded := if Z.abs semitones <=? 21 then Z.abs semitones
                   else 10 + (Z.abs semitones - 10) mod 12) in *.
    clearbody folded. unfold getIntervalName.
    rewrite (fold_down_spec _ (Z.abs folded)) by lia.
    replace (Z.abs folded) with folded by lia.
    replace (folded <=? 21) with true by (symmetry; apply Z.leb_le; lia).
    destruct folded as [|p|p]; [| |lia].
    + eexists. split; [reflexivity|]. split; [simpl; tauto|discriminate].
    + do 5 (try destruct p as [p|p|]); try lia;
        (eexists; split; [reflexivity|]; split; [simpl; tauto|discriminate]).
  - unfold getIntervalName. by rewrite Z.abs_opp.
  - intros Hbig. destruct (getIntervalName_folded semitones) as [_ ->].
    by replace (Z.abs semitones <=? 21) with false by (symmetry; apply Z.leb_gt; lia).
Qed.

(** ** Counting the orderings *)

Section HeapCount.
Context {A : Type}.
Implicit Types (l pre suf c u v w q B R : list A) (Y : list (list A)).

Local Ltac len_solve :=
  repeat (rewrite length_app in * ); simpl length in *; lia.

Lemma heap_fold_length (rec : list A -> list (list A) * list A) (n k : nat) :
  (forall a, length (fst (rec a)) = k) ->
  forall (idx : list nat) st,
    length (fst (fold_left (heap_step rec n) idx st))
    = (length (fst st) + length idx * k)%nat.
Proof.
  intros Hrec. induction idx as [|i idx IH]; intros [ys a]; simpl fold_left.
  - simpl. lia.
  - rewrite IH. unfold heap_step. specialize (Hrec a).
    destruct (rec a) as [ys' a']. simpl in *. rewrite length_app. lia.
Qed.

Lemma permutations_length (n : nat) : forall array : list A,
  length (fst (permutations n array)) = fact n.
Proof.
  induction n as [|m IH]; intros array; [reflexivity|].
  destruct m as [|k]; [reflexivity|].
  rewrite permutations_unfold, (heap_fold_length _ _ (fact (S k))) by exact IH.
  rewrite length_seq. simpl length. change (fact (S (S k))) with (S (S k) * fact (S k))%nat.
  lia.
Qed.

Lemma yields_nodup_app Y1 Y2 (e : A) B' R' :
  NoDup Y1 -> NoDup Y2 ->
  (forall q, In q Y1 -> exists q', q = q' ++ [e]) ->
  yields_ok B' R' Y2 -> ~ In e R' ->
  NoDup (Y1 ++ Y2).
Proof.
  intros H1 H2 Hlast HY2 He. apply NoDup_app. split; [exact H1|]. split; [|exact H2].
  intros q Hq1 Hq2. apply list_elem_of_In in Hq1, Hq2.
  destruct (Hlast q Hq1) as [q' ->].
  apply HY2 in Hq2 as [_ (q'' & z & Heq & Hz)].
  apply app_inj_tail in Heq as [_ ->]. contradiction.
Qed.

Section CountLoop.
Variable m : nat.
Hypothesis IHnd : heap_nodup A m.
Variable suf : list A.

Local Abbreviation G := (@heap_step A (permutations m) (S m)).

Lemma heap_step_nodup ys c (e : A) i :
  length c = m -> NoDup c ->
  exists Y1,
    G (ys, c ++ [e] ++ suf) i
    = (ys ++ map (fun q => q ++ suf) Y1,
       swap (heap_buffer m c ++ [e] ++ suf) m (if Nat.odd (S m) then 0%nat else i))
    /\ (forall q, In q Y1 <-> exists q', q = q' ++ [e] /\ Permutation c q')
    /\ NoDup Y1.
Proof.
  intros Hc Hnd.
  destruct (heap_step_eq m (permutations_spec m) suf ys c e i Hc) as (Y1 & HY1 & Hchar).
  exists Y1. split; [exact HY1|]. split; [exact Hchar|].
  specialize (IHnd c ([e] ++ suf) Hc Hnd).
  unfold heap_step in HY1. destruct (permutations m (c ++ [e] ++ suf)) as [ys' a'].
  injection HY1 as Hys _. apply app_inv_head in Hys. simpl in IHnd. subst ys'.
  apply NoDup_ListNoDup in IHnd. apply NoDup_ListNoDup.
  by apply List.NoDup_map_inv in IHnd.
Qed.

Lemma odd_loop_nodup (Hodd : Nat.odd (S m) = true) (Hm : (1 <= m)%nat) :
  forall (idx : list nat) w B0 ys,
    length idx = length w -> length (B0 ++ w) = S m -> NoDup (B0 ++ w) ->
    exists Y,
      fold_left G idx (ys, B0 ++ w ++ suf)
      = (ys ++ map (fun q => q ++ suf) Y, w ++ B0 ++ suf)
      /\ yields_ok (B0 ++ w) w Y /\ NoDup Y.
Proof.
  assert (Heven : Nat.even m = true) by (by rewrite Nat.odd_succ in Hodd).
  induction idx as [|i idx IHidx]; intros w B0 ys Hlen HB Hnd.
  - destruct w; [|discriminate]. exists []. split; [|split].
    + simpl. by rewrite !app_nil_r.
    + apply yields_ok_nil.
    + constructor.
  - destruct (snoc_case w) as [-> | (w' & x & ->)]; [discriminate|].
    rewrite length_app in Hlen. simpl in Hlen.
    assert (Hc : length (B0 ++ w') = m) by len_solve.
    assert (Hperm : Permutation (B0 ++ w' ++ [x]) ((x :: B0) ++ w')).
    { rewrite app_assoc. simpl. by rewrite <- Permutation_cons_append. }
    assert (Hnd' : NoDup ((x :: B0) ++ w')) by (by rewrite <- Hperm).
    simpl in Hnd'. apply NoDup_cons in Hnd' as [Hx Hndc].
    destruct (heap_step_nodup ys (B0 ++ w') x i Hc Hndc) as (Y1 & HY1 & Hchar & HndY1).
    rewrite Hodd in HY1. unfold heap_buffer in HY1. rewrite Heven in HY1.
    destruct (snoc_case (B0 ++ w')) as [E | (c' & z & E)].
    { rewrite E in Hc. simpl in Hc. lia. }
    assert (Hrot : rotr (B0 ++ w') = z :: c') by (by rewrite E, rotr_snoc).
    rewrite Hrot in HY1.
    assert (Hsw : swap ((z :: c') ++ [x] ++ suf) m 0 = (x :: B0) ++ w' ++ suf).
    { pose proof (swap_far [] c' suf z x) as Hs. simpl in Hs.
      replace (S (length c')) with m in Hs.
      2:{ rewrite E in Hc. len_solve. }
      simpl. rewrite Hs. simpl. f_equal.
      change (z :: suf) with ([z] ++ suf). rewrite app_assoc, <- E.
      by rewrite <- app_assoc. }
    rewrite Hsw in HY1.
    destruct (IHidx w' (x :: B0) (ys ++ map (fun q => q ++ suf) Y1))
      as (Y2 & HY2 & Hchar2 & HndY2).
    { lia. }
    { len_solve. }
    { simpl. apply NoDup_cons. by split. }
    exists (Y1 ++ Y2). split; [|split].
    + cbn [fold_left].
      replace (B0 ++ (w' ++ [x]) ++ suf) with ((B0 ++ w') ++ [x] ++ suf)
        by (by rewrite <- !app_assoc).
      rewrite HY1, HY2. f_equal.
      * by rewrite map_app, app_assoc.
      * by rewrite <- !app_assoc.
    + apply (yields_ok_app _ ((x :: B0) ++ w') (B0 ++ w') x _ w' Y1 Y2);
        [by rewrite app_assoc|exact Hperm
        |intros z'; rewrite in_app_iff; simpl; intuition congruence
        |exact Hchar|exact Hchar2].
    + apply (yields_nodup_app Y1 Y2 x ((x :: B0) ++ w') w'); try assumption.
      * intros q Hq. apply Hchar in Hq as (q' & -> & _). by exists q'.
      * intros Hin. apply Hx. apply list_elem_of_In. rewrite in_app_iff. by right.
Qed.

Lemma even_loop_nodup (Hodd : Nat.odd (S m) = false) (l : A) :
  forall v u x ys,
    (length u + 1 + length v = m)%nat ->
    NoDup ((l :: u) ++ v ++ [x]) ->
    exists Y,
      fold_left G (seq (S (length u)) (S (length v)))
                (ys, (l :: u) ++ v ++ [x] ++ suf)
      = (ys ++ map (fun q => q ++ suf) Y, (l :: u) ++ [x] ++ v ++ suf)
      /\ yields_ok ((l :: u) ++ v ++ [x]) (x :: v) Y /\ NoDup Y.
Proof.
  assert (Heven : Nat.even m = false) by (by rewrite Nat.odd_succ in Hodd).
  induction v as [|y v' IHv]; intros u x ys Hlen Hnd.
  - simpl in Hlen.
    assert (Hndc : NoDup (l :: u)).
    { rewrite app_nil_l in Hnd. by apply NoDup_app in Hnd as [? _]. }
    destruct (heap_step_nodup ys (l :: u) x (S (length u)))
      as (Y1 & HY1 & Hchar & HndY1); [simpl; lia|exact Hndc|].
    rewrite Hodd in HY1. unfold heap_buffer in HY1. rewrite Heven in HY1.
    assert (Hsw : swap ((l :: u) ++ [x] ++ suf) m (S (length u))
                  = (l :: u) ++ [x] ++ suf).
    { replace m with (S (length u)) by lia. apply swap_diag. }
    rewrite Hsw in HY1.
    exists Y1. split; [|split; [|exact HndY1]].
    + cbn [seq fold_left length]. cbn [app] in HY1 |- *. exact HY1.
    + rewrite <- (app_nil_r Y1).
      apply (yields_ok_app _ ((l :: u) ++ [x]) (l :: u) x _ [] Y1 []);
        [reflexivity|reflexivity|simpl; intuition congruence|exact Hchar|].
      apply yields_ok_nil.
  - simpl in Hlen.
    assert (Hperm : Permutation ((l :: u) ++ (y :: v') ++ [x])
                      ((l :: u ++ [x]) ++ v' ++ [y])).
    { simpl. apply perm_skip. rewrite <- !app_assoc.
      apply Permutation_app_head. simpl.
      rewrite (Permutation_app_comm v' [y]). simpl.
      rewrite (Permutation_app_comm (y :: v') [x]). reflexivity. }
    assert (Hndc : NoDup ((l :: u) ++ y :: v') /\ ~ In x (y :: v')).
    { rewrite app_assoc in Hnd. apply NoDup_app in Hnd as (Hc & Hdisj & _).
      split; [exact Hc|]. intros Hin. apply (Hdisj x).
      - apply list_elem_of_In. rewrite in_app_iff. by right.
      - by left. }
    destruct Hndc as [Hndc Hx].
    destruct (heap_step_nodup ys ((l :: u) ++ y :: v') x (S (length u)))
      as (Y1 & HY1 & Hchar & HndY1); [len_solve|exact Hndc|].
    rewrite Hodd in HY1. unfold heap_buffer in HY1. rewrite Heven in HY1.
    assert (Hsw : swap (((l :: u) ++ y :: v') ++ [x] ++ suf) m (S (length u))
                  = (l :: u ++ [x]) ++ v' ++ [y] ++ suf).
    { pose proof (swap_far (l :: u) v' suf y x) as Hs.
      replace (length (l :: u) + S (length v'))%nat with m in Hs by (simpl; lia).
      simpl length in Hs. rewrite <- !app_assoc. simpl.
      simpl in Hs. rewrite Hs. by rewrite <- !app_assoc. }
    rewrite Hsw in HY1.
    destruct (IHv (u ++ [x]) y (ys ++ map (fun q => q ++ suf) Y1))
      as (Y2 & HY2 & Hchar2 & HndY2).
    { len_solve. }
    { by rewrite <- Hperm. }
    replace (length (u ++ [x])) with (S (length u)) in HY2 by len_solve.
    exists (Y1 ++ Y2). split; [|split].
    + rewrite <- cons_seq. cbn [fold_left length].
      rewrite (app_assoc (l :: u) (y :: v')), HY1, HY2. f_equal.
      * by rewrite map_app, app_assoc.
      * simpl. rewrite <- ?app_assoc. reflexivity.
    + apply (yields_ok_app _ ((l :: u ++ [x]) ++ v' ++ [y])
               ((l :: u) ++ y :: v') x _ (y :: v') Y1 Y2);
        [by rewrite <- !app_assoc|exact Hperm
        |simpl; intuition congruence|exact Hchar|exact Hchar2].
    + apply (yields_nodup_app Y1 Y2 x ((l :: u ++ [x]) ++ v' ++ [y]) (y :: v'));
        try assumption.
      intros q Hq. apply Hchar in Hq as (q' & -> & _). by exists q'.
Qed.
End CountLoop.

Lemma permutations_nodup (n : nat) : heap_nodup A n.
Proof.
  induction n as [|m IH]; intros pre suf Hlen Hnd.
  - simpl. apply NoDup_singleton.
  - destruct m as [|k]; [simpl; apply NoDup_singleton|].
    rewrite permutations_unfold.
    destruct (Nat.odd (S (S k))) eqn:Hodd.
    + destruct (odd_loop_nodup (S k) IH suf Hodd ltac:(lia) (seq 0 (S (S k))) pre [] [])
        as (Y & HY & _ & HndY); [by rewrite length_seq|exact Hlen|exact Hnd|].
      simpl app in HY. rewrite HY. simpl fst.
      apply NoDup_ListNoDup. apply List.NoDup_map_NoDup_ForallPairs.
      * intros q1 q2 _ _ E. by apply app_inv_tail in E.
      * by apply NoDup_ListNoDup.
    + destruct (snoc_case pre) as [-> | (p & l & ->)]; [discriminate|].
      destruct p as [|y v0]; [discriminate|].
      assert (Hk : S k = S (length v0)) by len_solve.
      assert (Hndp : NoDup (y :: v0) /\ ~ In l (y :: v0)).
      { apply NoDup_app in Hnd as (Hp & Hdisj & _). split; [exact Hp|].
        intros Hin. apply (Hdisj l); [by apply list_elem_of_In|by left]. }
      destruct Hndp as [Hndp Hl].
      destruct (heap_step_nodup (S k) IH suf [] (y :: v0) l 0%nat)
        as (Y1 & HY1 & Hchar1 & HndY1); [len_solve|exact Hndp|].
      rewrite Hodd in HY1. unfold heap_buffer in HY1.
      assert (Heven : Nat.even (S k) = false) by (by rewrite Nat.odd_succ in Hodd).
      rewrite Heven in HY1.
      assert (Hsw : swap ((y :: v0) ++ [l] ++ suf) (S k) 0
                    = (l :: []) ++ v0 ++ [y] ++ suf).
      { pose proof (swap_far [] v0 suf y l) as Hs. simpl in Hs.
        rewrite Hk. simpl. exact Hs. }
      rewrite Hsw in HY1.
      destruct (even_loop_nodup (S k) IH suf Hodd l v0 [] y
                  ([] ++ map (fun q => q ++ suf) Y1)) as (Y2 & HY2 & Hchar2 & HndY2).
      { len_solve. }
      { assert (Hp : Permutation ((y :: v0) ++ [l]) ((l :: []) ++ v0 ++ [y])).
        { simpl. rewrite <- !Permutation_cons_append. apply perm_swap. }
        by rewrite <- Hp. }
      rewrite <- cons_seq. cbn [fold_left].
      replace (((y :: v0) ++ [l]) ++ suf) with ((y :: v0) ++ [l] ++ suf)
        by (by rewrite <- !app_assoc).
      simpl length in HY2. rewrite <- Hk in HY2.
      rewrite HY1, HY2. simpl fst. rewrite <- map_app.
      apply NoDup_ListNoDup. apply List.NoDup_map_NoDup_ForallPairs.
      * intros q1 q2 _ _ E. by apply app_inv_tail in E.
      * apply NoDup_ListNoDup.
        by apply (yields_nodup_app Y1 Y2 l ((l :: []) ++ v0 ++ [y]) (y :: v0));
          try assumption;
          intros q Hq; apply Hchar1 in Hq as (q' & -> & _); exists q'.
Qed.
End HeapCount.

(** X4. Called on an array of [n] cells, [permutations] yields [n!]
    arrays, which are exactly the orderings of the array; when the cells are
    distinct no ordering is yielded twice.  The shared buffer is back in its
    initial order afterwards when [n] is odd and rotated by one position
    when [n] is even. *)
Theorem permutations_exact {A : Type} (array : list A) :
  let n := length array in
  length (fst (permutations n array)) = fact n
  /\ (forall q, In q (fst (permutations n array)) <-> Permutation array q)
  /\ (NoDup array -> NoDup (fst (permutations n array)))
  /\ snd (permutations n array) = if Nat.even n then rotr array else array.
Proof.
  intros n. split; [apply permutations_length|].
  split; [intros q; apply permutations_complete|]. split.
  - intros Hnd. pose proof (permutations_nodup n array [] eq_refl Hnd) as H.
    by rewrite app_nil_r in H.
  - destruct (permutations_spec n array [] eq_refl) as (Y & HY & _).
    rewrite !app_nil_r in HY. by rewrite HY.
Qed.

(** ** Energy of the canonical stacking *)

Lemma fold_left_add_shift (l : list Z) : forall acc,
  fold_left Z.add l acc = acc + fold_left Z.add l 0.
Proof.
  induction l as [|v l IH]; intros acc; simpl; [lia|].
  rewrite (IH (acc + v)), (IH (0 + v)). lia.
Qed.

Lemma energy_of_cons (v : Z) (pattern : list Z) :
  energy_of (v :: pattern) = v + energy_of pattern.
Proof. unfold energy_of. simpl. apply fold_left_add_shift. Qed.

Lemma energy_of_lower (pattern : list Z) :
  Forall (fun v => 1 <= v) pattern -> Z.of_nat (length pattern) <= energy_of pattern.
Proof.
  induction 1 as [|v pattern Hv _ IH]; [reflexivity|].
  rewrite energy_of_cons. simpl length. lia.
Qed.

Lemma intervals_in_range (chord : list Z) :
  NoDup chord -> Forall is_pitch_class chord ->
  Forall (fun v => 1 <= v <= 11) (intervals chord).
Proof.
  induction chord as [|a [|b rest] IH]; intros Hnd Hpc; try constructor.
  - apply NoDup_cons in Hnd as [Ha _].
    inversion Hpc as [|? ? Hapc Hpc']; subst. inversion Hpc' as [|? ? Hbpc _]; subst.
    destruct (normalize_interval_distinct a b Hapc Hbpc) as [-> Hr]; [|exact Hr].
    intros ->. apply Ha. by left.
  - apply IH; [by apply NoDup_cons in Hnd as [_ ?]|by inversion Hpc].
Qed.

Lemma last_cons_default {A : Type} (l : list A) : forall (c d d' : A),
  List.last (c :: l) d = List.last (c :: l) d'.
Proof.
  induction l as [|x l IH]; intros c d d'; [reflexivity|].
  change (List.last (x :: l) d = List.last (x :: l) d'). apply IH.
Qed.

Lemma last_cons_step {A : Type} (l : list A) (b a : A) :
  List.last (b :: l) a = List.last l b.
Proof. destruct l as [|c l]; [reflexivity|]. apply (last_cons_default (c :: l) b a b) || (change (List.last (c :: l) a = List.last (c :: l) b); apply last_cons_default). Qed.

Lemma last_In_cons {A : Type} (l : list A) : forall a : A, In (List.last l a) (a :: l).
Proof.
  induction l as [|b l IH]; intros a; [by left|].
  rewrite last_cons_step. right. apply IH.
Qed.

Lemma ascending_last_max (rest : list Z) : forall a pc : Z,
  StronglySorted (fun x y => x - y <= 0) (a :: rest) ->
  In pc (a :: rest) -> pc <= List.last rest a.
Proof.
  induction rest as [|b rest IH]; intros a pc Hss Hin.
  - destruct Hin as [<- | []]. simpl. lia.
  - inversion Hss as [|? ? Hs' Hall]; subst.
    rewrite last_cons_step.
    destruct Hin as [<- | Hin].
    + inversion Hall as [|? ? Hab _]; subst.
      specialize (IH b b Hs' (or_introl eq_refl)). lia.
    + apply (IH b pc Hs' Hin).
Qed.

(** The energy of an ascending list is its span. *)
Lemma intervals_ascending (a : Z) (rest : list Z) :
  StronglySorted (fun x y => x - y <= 0) (a :: rest) ->
  energy_of (intervals (a :: rest)) = List.last rest a - a.
Proof.
  revert a. induction rest as [|b rest IH]; intros a Hs; [simpl; unfold energy_of; simpl; lia|].
  change (intervals (a :: b :: rest))
    with (normalize_interval (b - a) :: intervals (b :: rest)).
  inversion Hs as [|? ? Hs' Hall]; subst. inversion Hall as [|? ? Hab _]; subst.
  rewrite energy_of_cons, (IH b Hs'), normalize_interval_spec.
  replace (b - a <? 0) with false by (symmetry; apply Z.ltb_ge; lia).
  rewrite last_cons_step. lia.
Qed.

(** X5. For two or more distinct pitch classes the energy of the ordering
    the resolver returns is at least the number of intervals and at most the
    span from the lowest to the highest pitch class of the set, hence at
    most 11: the stack fits inside one octave. *)
Theorem getAsStackedChord_energy_bounds (noteClasses : list Z) :
  NoDup noteClasses ->
  Forall is_pitch_class noteClasses ->
  (2 <= length noteClasses)%nat ->
  exists stacked lowest highest,
    getAsStackedChord noteClasses = Ok stacked
    /\ In lowest noteClasses /\ In highest noteClasses
    /\ (forall pc, In pc noteClasses -> lowest <= pc <= highest)
    /\ Z.of_nat (length noteClasses) - 1 <= energy stacked <= highest - lowest
    /\ highest - lowest <= 11.
Proof.
  intros Hnd Hpc Hlen.
  destruct (getAsStackedChord_spec noteClasses Hlen) as (stacked & Hres & Hperm & Hmin).
  pose (cmp := fun a b : Z => a - b).
  pose proof (array_sort_perm cmp noteClasses) as Hsp.
  pose proof (array_sort_sorted cmp) as Hss.
  specialize (Hss ltac:(intros a b; unfold cmp; lia) ltac:(intros a b c; unfold cmp; lia)
                noteClasses).
  destruct (array_sort cmp noteClasses) as [|lowest rest] eqn:Hsort.
  { apply Permutation_nil in Hsp. subst. simpl in Hlen. lia. }
  pose proof (last_In_cons rest lowest) as Hlast.
  exists stacked, lowest, (List.last rest lowest).
  split; [exact Hres|].
  split; [apply (Permutation_in _ Hsp); by left|].
  split; [by apply (Permutation_in _ Hsp)|].
  assert (Hbounds : forall pc, In pc noteClasses -> lowest <= pc <= List.last rest lowest).
  { intros pc Hin. apply (Permutation_in _ (Permutation_sym Hsp)) in Hin.
    inversion Hss as [|? ? Hs' Hall]; subst.
    rewrite List.Forall_forall in Hall. split.
    - destruct Hin as [<- | Hin]; [lia|]. specialize (Hall pc Hin). unfold cmp in Hall. lia.
    - by apply ascending_last_max. }
  split; [exact Hbounds|].
  assert (Hsorted_energy : energy (lowest :: rest) = List.last rest lowest - lowest).
  { unfold energy, getIntervalPattern.
    assert (Hl : length (lowest :: rest) = length noteClasses)
      by (pose proof (Permutation_length Hsp) as Hpl; lia).
    destruct (Nat.ltb_spec (length (lowest :: rest)) 2) as [Hlt|_]; [lia|].
    by apply intervals_ascending. }
  split; [split|].
  - assert (Hrange : Forall (fun v => 1 <= v <= 11) (getIntervalPattern stacked)).
    { unfold getIntervalPattern.
      replace (length stacked <? 2)%nat with false
        by (symmetry; apply Nat.ltb_ge; rewrite <- (Permutation_length Hperm); lia).
      apply intervals_in_range; by rewrite <- Hperm. }
    assert (Hl : length (getIntervalPattern stacked) = (length noteClasses - 1)%nat).
    { unfold getIntervalPattern.
      replace (length stacked <? 2)%nat with false
        by (symmetry; apply Nat.ltb_ge; rewrite <- (Permutation_length Hperm); lia).
      by rewrite intervals_length, (Permutation_length Hperm). }
    pose proof (energy_of_lower (getIntervalPattern stacked)) as Hlow.
    unfold energy. rewrite Hl in Hlow.
    assert (Z.of_nat (length noteClasses - 1) <= energy_of (getIntervalPattern stacked)).
    { apply Hlow. eapply Forall_impl; [exact Hrange|]. simpl. lia. }
    lia.
  - rewrite <- Hsorted_energy. apply Hmin. by symmetry.
  - rewrite List.Forall_forall in Hpc.
    assert (H1 : In lowest noteClasses) by (apply (Permutation_in _ Hsp); by left).
    assert (H2 : In (List.last rest lowest) noteClasses) by (by apply (Permutation_in _ Hsp)).
    apply Hpc in H1, H2. unfold is_pitch_class in *. lia.
Qed.

Lemma getAsStackedChord_energy_bounds_witness :
  exists stacked lowest highest,
    getAsStackedChord [4; 0; 7] = Ok stacked
    /\ In lowest [4; 0; 7] /\ In highest [4; 0; 7]
    /\ (forall pc, In pc [4; 0; 7] -> lowest <= pc <= highest)
    /\ Z.of_nat (length [4; 0; 7]%Z) - 1 <= energy stacked <= highest - lowest
    /\ highest - lowest <= 11.
Proof.
  apply getAsStackedChord_energy_bounds.
  - apply NoDup_ListNoDup. repeat constructor; simpl; intuition lia.
  - repeat constructor; unfold is_pitch_class; lia.
  - simpl. lia.
Defined.

(** ** The resolver under transposition *)

Lemma transpose_pitch_class (c pc : Z) : is_pitch_class (transpose c pc).
Proof. unfold is_pitch_class, transpose. pose proof (Z.mod_pos_bound (pc + c) 12). lia. Qed.

Lemma intervals_map_transpose (c : Z) (chord : list Z) :
  Forall is_pitch_class chord ->
  intervals (map (transpose c) chord) = intervals chord.
Proof.
  induction chord as [|a [|b rest] IH]; intros Hpc; try reflexivity.
  change (normalize_interval (transpose c b - transpose c a)
            :: intervals (map (transpose c) (b :: rest))
          = normalize_interval (b - a) :: intervals (b :: rest)).
  inversion Hpc as [|? ? Ha Hpc']; subst. inversion Hpc' as [|? ? Hb _]; subst.
  rewrite (IH Hpc'). f_equal.
  pose proof (transpose_pitch_class c a) as Hta.
  pose proof (transpose_pitch_class c b) as Htb.
  unfold is_pitch_class in *.
  rewrite !normalize_interval_mod by lia.
  unfold transpose. rewrite <- Zminus_mod. f_equal. lia.
Qed.

Lemma getIntervalPattern_map_transpose (c : Z) (chord : list Z) :
  Forall is_pitch_class chord ->
  getIntervalPattern (map (transpose c) chord) = getIntervalPattern chord.
Proof.
  intros Hpc. unfold getIntervalPattern. rewrite length_map.
  destruct (length chord <? 2)%nat; [reflexivity|]. by apply intervals_map_transpose.
Qed.

(** X6. Transposing a set of pitch classes by any number of semitones does
    not change the interval pattern of the canonical stacking the resolver
    returns, so the same template is looked up in every key. *)
Theorem getAsStackedChord_transposed (c : Z) (noteClasses : list Z) :
  Forall is_pitch_class noteClasses ->
  exists stacked stacked',
    getAsStackedChord noteClasses = Ok stacked
    /\ getAsStackedChord (map (transpose c) noteClasses) = Ok stacked'
    /\ getIntervalPattern stacked' = getIntervalPattern stacked
    /\ patternKey stacked' = patternKey stacked
    /\ forall formulas : list ChordFormula,
         find (fun f => String.eqb (pattern f) (patternKey stacked')) formulas
         = find (fun f => String.eqb (pattern f) (patternKey stacked)) formulas.
Proof.
  intros Hpc.
  assert (Hgoal : exists stacked stacked',
    getAsStackedChord noteClasses = Ok stacked
    /\ getAsStackedChord (map (transpose c) noteClasses) = Ok stacked'
    /\ patternKey stacked' = patternKey stacked).
  { destruct (Nat.le_gt_cases (length noteClasses) 1) as [Hle|Hgt].
    - exists noteClasses, (map (transpose c) noteClasses).
      unfold getAsStackedChord. rewrite length_map.
      replace (length noteClasses <=? 1)%nat with true by (symmetry; apply Nat.leb_le; lia).
      repeat split. unfold patternKey. by rewrite getIntervalPattern_map_transpose.
    - destruct (getAsStackedChord_spec noteClasses) as (s & Hs & Hps & Hmins); [lia|].
      destruct (getAsStackedChord_spec (map (transpose c) noteClasses))
        as (s' & Hs' & Hps' & Hmins'); [rewrite length_map; lia|].
      exists s, s'. repeat split; try assumption.
      assert (Hspc : Forall is_pitch_class s) by (by rewrite <- Hps).
      destruct (Permutation_map_inv (transpose c) noteClasses (Permutation_sym Hps'))
        as (p & -> & Hpp).
      assert (Hppc : Forall is_pitch_class p) by (by rewrite <- Hpp).
      assert (Hes : energy (map (transpose c) s) = energy s)
        by (unfold energy; by rewrite getIntervalPattern_map_transpose).
      assert (Hep : energy (map (transpose c) p) = energy p)
        by (unfold energy; by rewrite getIntervalPattern_map_transpose).
      assert (Hks : patternKey (map (transpose c) s) = patternKey s)
        by (unfold patternKey; by rewrite getIntervalPattern_map_transpose).
      assert (Hkp : patternKey (map (transpose c) p) = patternKey p)
        by (unfold patternKey; by rewrite getIntervalPattern_map_transpose).
      destruct (Hmins p Hpp) as [Hle1 Htie1].
      destruct (Hmins' (map (transpose c) s) (Permutation_map _ Hps)) as [Hle2 Htie2].
      assert (Heq : energy p = energy s) by lia.
      rewrite Hkp. apply String.leb_antisym.
      + rewrite <- Hkp, <- Hks. apply Htie2. lia.
      + by apply Htie1. }
  destruct Hgoal as (stacked & stacked' & H1 & H2 & Hkey).
  exists stacked, stacked'. repeat split; try assumption.
  - by apply patternKey_inj.
  - intros formulas. by rewrite Hkey.
Qed.

Lemma getAsStackedChord_transposed_witness :
  exists stacked stacked',
    getAsStackedChord [0; 4; 7] = Ok stacked
    /\ getAsStackedChord (map (transpose 7) [0; 4; 7]) = Ok stacked'
    /\ getIntervalPattern stacked' = getIntervalPattern stacked
    /\ patternKey stacked' = patternKey stacked
    /\ forall formulas : list ChordFormula,
         find (fun f => String.eqb (pattern f) (patternKey stacked')) formulas
         = find (fun f => String.eqb (pattern f) (patternKey stacked)) formulas.
Proof.
  apply getAsStackedChord_transposed.
  repeat constructor; unfold is_pitch_class; lia.
Defined.

(** ** Detection does not depend on the order of the notes *)

Lemma ascending_unique (l1 : list Z) : forall l2 : list Z,
  StronglySorted (fun a b => a - b <= 0) l1 ->
  StronglySorted (fun a b => a - b <= 0) l2 ->
  Permutation l1 l2 -> l1 = l2.
Proof.
  induction l1 as [|a l1 IH]; intros l2 Hs1 Hs2 Hperm.
  - by apply Permutation_nil in Hperm.
  - destruct l2 as [|b l2]; [by apply Permutation_sym, Permutation_nil in Hperm|].
    inversion Hs1 as [|? ? Hs1' Hall1]; subst.
    inversion Hs2 as [|? ? Hs2' Hall2]; subst.
    rewrite List.Forall_forall in Hall1, Hall2.
    assert (a = b) as ->.
    { assert (Hb : In b (a :: l1))
        by (apply (Permutation_in _ (Permutation_sym Hperm)); by left).
      assert (Ha : In a (b :: l2)) by (apply (Permutation_in _ Hperm); by left).
      destruct Hb as [-> | Hb]; [reflexivity|].
      destruct Ha as [-> | Ha]; [reflexivity|].
      apply Hall1 in Hb. apply Hall2 in Ha. lia. }
    f_equal. apply IH; try assumption. by apply Permutation_cons_inv in Hperm.
Qed.

Lemma array_sort_ascending (l : list Z) :
  StronglySorted (fun a b => a - b <= 0) (array_sort (fun a b => a - b) l).
Proof. apply array_sort_sorted; intros; lia. Qed.

Lemma midiNotes_of_Permutation (notes notes' : list string) :
  Permutation notes notes' -> midiNotes_of notes = midiNotes_of notes'.
Proof.
  intros Hperm. apply ascending_unique; try apply array_sort_ascending.
  rewrite !midiNotes_of_perm. by apply Permutation_map.
Qed.

(** X7. The result of [detectChord] does not depend on the order in which
    the note identifiers are passed. *)
Theorem detectChord_order_independent (notes notes' : list string)
    (opts : option DetectOptions) :
  Permutation notes notes' -> detectChord notes opts = detectChord notes' opts.
Proof.
  intros Hperm. unfold detectChord, detectChordWith.
  change (array_sort (fun a b => a - b) (map noteToMidi notes)) with (midiNotes_of notes).
  change (array_sort (fun a b => a - b) (map noteToMidi notes')) with (midiNotes_of notes').
  by rewrite (Permutation_length Hperm), (midiNotes_of_Permutation notes notes' Hperm).
Qed.

Lemma detectChord_order_independent_witness :
  detectChord ["G4"; "C4"; "E4"] None = detectChord (["C4"; "E4"] ++ ["G4"]) None.
Proof.
  apply detectChord_order_independent.
  apply (Permutation_cons_append ["C4"; "E4"] "G4").
Defined.

(** ** Identifiers that do not parse *)

Section IndexOfFacts.
Context {A : Type}.

Lemma indexOf_from_bounds (eqb : A -> A -> bool) (x : A) (arr : list A) : forall i,
  indexOf_from eqb x arr i = -1
  \/ i <= indexOf_from eqb x arr i < i + Z.of_nat (length arr).
Proof.
  induction arr as [|y rest IH]; intros i; [by left|].
  simpl indexOf_from. destruct (eqb y x).
  - right. simpl length. lia.
  - destruct (IH (i + 1)) as [H | H]; [by left|right]. simpl length. lia.
Qed.

Lemma indexOf_from_found (eqb : A -> A -> bool) (x : A) (arr : list A) : forall i,
  0 <= i ->
  (exists y, In y arr /\ eqb y x = true) ->
  exists y, arr !! Z.to_nat (indexOf_from eqb x arr i - i) = Some y
            /\ eqb y x = true
            /\ i <= indexOf_from eqb x arr i < i + Z.of_nat (length arr).
Proof.
  induction arr as [|z rest IH]; intros i Hi (y & Hin & Hy); [destruct Hin|].
  simpl indexOf_from. destruct (eqb z x) eqn:Hz.
  - exists z. rewrite Z.sub_diag. simpl length. repeat split; try done; lia.
  - destruct Hin as [-> | Hin]; [congruence|].
    destruct (IH (i + 1)) as (y' & Hlook & Hy' & Hrange); [lia|by exists y|].
    exists y'. simpl length. repeat split; try done; try lia.
    replace (indexOf_from eqb x rest (i + 1) - i)
      with (Z.succ (indexOf_from eqb x rest (i + 1) - (i + 1))) by lia.
    rewrite Z2Nat.inj_succ by lia. exact Hlook.
Qed.
End IndexOfFacts.

Lemma getIntervalName_defined (semitones : Z) :
  exists interval, getIntervalName semitones = Some interval /\ interval <> "Interval".
Proof.
  destruct (getIntervalName_folded semitones) as [Hrange ->].
  set (folded := if Z.abs semitones <=? 21 then Z.abs semitones
                 else 10 + (Z.abs semitones - 10) mod 12) in *.
  clearbody folded. unfold getIntervalName.
  rewrite (fold_down_spec _ (Z.abs folded)) by lia.
  replace (Z.abs folded) with folded by lia.
  replace (folded <=? 21) with true by (symmetry; apply Z.leb_le; lia).
  destruct folded as [|p|p]; [by eexists| |lia].
  do 5 (try destruct p as [p|p|]); try lia; by eexists.
Qed.

Lemma getIntervalName_opp (semitones : Z) :
  getIntervalName (- semitones) = getIntervalName semitones.
Proof. unfold getIntervalName. by rewrite Z.abs_opp. Qed.

(** A parsed identifier is worth at least 11; only a failed parse gives [-1]. *)
Lemma noteToMidi_range (note : string) :
  (note_match note = None /\ noteToMidi note = -1)
  \/ (note_shape note /\ 11 <= noteToMidi note <= 131).
Proof.
  unfold noteToMidi.
  destruct (note_match note) as [[name octaveStr]|] eqn:Hm; [right|by left].
  assert (Hidx : -1 <= indexOf String.eqb name SHARP_NOTES <= 11).
  { destruct (indexOf_from_bounds String.eqb name SHARP_NOTES 0) as [H | H];
      unfold indexOf; simpl length in H; lia. }
  assert (Hoct : note_shape note /\ exists d, is_digit d = true
                   /\ octaveStr = String d EmptyString).
  { destruct note as [|l [|c [|d [|? ?]]]]; try discriminate; simpl in Hm.
    - destruct (is_note_letter l) eqn:Hl, (is_digit c) eqn:Hc; try discriminate.
      injection Hm as <- <-. split; [exists l, c; auto|by exists c].
    - destruct (is_note_letter l) eqn:Hl, (is_sharp c) eqn:Hs, (is_digit d) eqn:Hd;
        try discriminate.
      injection Hm as <- <-. apply Ascii.eqb_eq in Hs as ->.
      split; [exists l, d; auto|by exists d]. }
  destruct Hoct as (Hshape & d & Hd & ->). split; [exact Hshape|].
  unfold parseInt10. simpl parseInt_from.
  unfold is_digit in Hd. apply andb_true_iff in Hd as [H1 H2].
  apply Nat.leb_le in H1, H2. unfold digit_value. lia.
Qed.

(** X8. An identifier that is not a letter A-G, an optional [#] and one
    digit is not rejected by [detectChord]: it is parsed to [-1], sorts
    below every parsed note and so becomes the bass, which is displayed as
    "B".  Alone it is reported as the note "B"; with one other note it is
    reported as an interval from "B". *)
Theorem detectChord_malformed_note (notes : list string) (opts : option DetectOptions) :
  (exists note, In note notes /\ ~ note_shape note) ->
  exists rest,
    midiNotes_of notes = -1 :: rest
    /\ midiToNoteName (-1) (useSharps_of opts) = "B"
    /\ (rest = [] -> detectChord notes opts = Ok (Some "B"))
    /\ (forall high, rest = [high] ->
        exists interval,
          getIntervalName (high + 1) = Some interval
          /\ detectChord notes opts
             = Ok (Some (interval ++ " (B, " ++ midiToNoteName high (useSharps_of opts)
                                  ++ ")")%string)).
Proof.
  intros (note & Hin & Hshape).
  assert (Hbad : noteToMidi note = -1).
  { destruct (noteToMidi_range note) as [[_ H] | [H _]]; [exact H|contradiction]. }
  assert (Hlow : forall n, In n (map noteToMidi notes) -> -1 <= n).
  { intros n Hn. apply in_map_iff in Hn as (s & <- & _).
    destruct (noteToMidi_range s) as [[_ H] | [_ H]]; lia. }
  assert (Hmem : In (-1) (map noteToMidi notes))
    by (apply in_map_iff; by exists note).
  destruct (midiNotes_of notes) as [|bassNote rest] eqn:Hsort.
  { pose proof (midiNotes_of_perm notes) as Hp. rewrite Hsort in Hp.
    apply Permutation_nil in Hp. rewrite Hp in Hmem. destruct Hmem. }
  destruct (midiNotes_of_bass notes bassNote rest Hsort) as [Hbin Hbmin].
  assert (bassNote = -1) as -> by (specialize (Hlow _ Hbin); specialize (Hbmin _ Hmem); lia).
  assert (HB : midiToNoteName (-1) (useSharps_of opts) = "B")
    by (by destruct (useSharps_of opts)).
  exists rest. split; [reflexivity|]. split; [exact HB|].
  assert (Hne : (length notes =? 0)%nat = false).
  { destruct notes; [destruct Hin|reflexivity]. }
  split.
  - intros ->. unfold detectChord, detectChordWith. rewrite Hne.
    change (array_sort (fun a b => a - b) (map noteToMidi notes)) with (midiNotes_of notes).
    rewrite Hsort. cbv iota beta zeta. by rewrite HB.
  - intros high ->.
    destruct (getIntervalName_defined (high + 1)) as (interval & Hint & _).
    exists interval. split; [exact Hint|].
    unfold detectChord, detectChordWith. rewrite Hne.
    change (array_sort (fun a b => a - b) (map noteToMidi notes)) with (midiNotes_of notes).
    rewrite Hsort. cbv iota beta zeta.
    replace (high - -1) with (high + 1) by lia. rewrite Hint, HB. reflexivity.
Qed.

Lemma detectChord_malformed_note_witness :
  exists rest,
    midiNotes_of ["Db4"] = -1 :: rest
    /\ midiToNoteName (-1) (useSharps_of None) = "B"
    /\ (rest = [] -> detectChord ["Db4"] None = Ok (Some "B"))
    /\ (forall high, rest = [high] ->
        exists interval,
          getIntervalName (high + 1) = Some interval
          /\ detectChord ["Db4"] None
             = Ok (Some (interval ++ " (B, " ++ midiToNoteName high (useSharps_of None)
                                  ++ ")")%string)).
Proof.
  apply detectChord_malformed_note.
  exists "Db4". split; [by left|].
  intros (l & d & _ & Hd & [E | E]).
  - injection E as _ <- . discriminate Hd.
  - injection E as _ E. discriminate E.
Defined.

(** ** The pitch classes handed to the resolver *)

Lemma set_values_fold (l : list Z) : forall seen : list Z,
  List.NoDup seen ->
  let r := fold_left (fun seen x => if existsb (Z.eqb x) seen then seen else seen ++ [x])
                     l seen in
  List.NoDup r /\ forall x, In x r <-> In x seen \/ In x l.
Proof.
  induction l as [|y l IH]; intros seen Hnd; simpl.
  - split; [exact Hnd|]. intros x. tauto.
  - destruct (existsb (Z.eqb y) seen) eqn:Hex.
    + destruct (IH seen Hnd) as [Hr Hin]. split; [exact Hr|].
      intros x. rewrite Hin. apply existsb_exists in Hex as (z & Hz & Hyz).
      apply Z.eqb_eq in Hyz as ->. intuition (subst; auto).
    + assert (Hnot : ~ In y seen).
      { intros Hy. assert (existsb (Z.eqb y) seen = true); [|congruence].
        apply existsb_exists. exists y. split; [exact Hy|apply Z.eqb_refl]. }
      destruct (IH (seen ++ [y])) as [Hr Hin].
      { apply List.NoDup_app; [exact Hnd|repeat constructor; intros []|].
        intros a Ha [<- | []]. contradiction. }
      split; [exact Hr|]. intros x. rewrite Hin, in_app_iff. simpl. tauto.
Qed.

Lemma set_values_spec (l : list Z) :
  NoDup (set_values l) /\ forall x, In x (set_values l) <-> In x l.
Proof.
  destruct (set_values_fold l [] ltac:(constructor)) as [Hnd Hin].
  split; [by apply NoDup_ListNoDup|]. intros x. rewrite (Hin x). simpl. tauto.
Qed.

Lemma set_values_snoc (l : list Z) (x : Z) :
  In x l -> set_values (l ++ [x]) = set_values l.
Proof.
  intros Hin. unfold set_values. rewrite fold_left_app. simpl.
  fold (set_values l).
  assert (existsb (Z.eqb x) (set_values l) = true) as ->; [|reflexivity].
  apply existsb_exists. exists x. split; [by apply set_values_spec|apply Z.eqb_refl].
Qed.

(** X9. The pitch classes [detectChord] hands to the resolver are pairwise
    distinct remainders of the parsed notes, each between [-1] and [11];
    they are true pitch classes when every identifier has the shape of a
    note, at most 13 values exist, and below the "Note Soup" threshold the
    resolver enumerates at most 8! orderings. *)
Theorem noteClasses_of_invariant (notes : list string) :
  NoDup (noteClasses_of notes)
  /\ (forall pc, In pc (noteClasses_of notes)
                 <-> exists note, In note notes /\ pc = Z.rem (noteToMidi note) 12)
  /\ Forall (fun pc => -1 <= pc <= 11) (noteClasses_of notes)
  /\ (Forall note_shape notes -> Forall is_pitch_class (noteClasses_of notes))
  /\ (length (noteClasses_of notes) <= 13)%nat
  /\ ((length (noteClasses_of notes) < 9)%nat ->
      (length (fst (permutations (length (noteClasses_of notes)) (noteClasses_of notes)))
       <= fact 8)%nat).
Proof.
  destruct (set_values_spec (map (fun n => Z.rem n 12) (midiNotes_of notes))) as [Hnd Hin].
  fold (noteClasses_of notes) in Hnd, Hin.
  assert (Hmem : forall pc, In pc (noteClasses_of notes)
                 <-> exists note, In note notes /\ pc = Z.rem (noteToMidi note) 12).
  { intros pc. rewrite Hin, in_map_iff. split.
    - intros (n & <- & Hn).
      apply (Permutation_in _ (midiNotes_of_perm notes)), in_map_iff in Hn
        as (note & <- & Hnote).
      by exists note.
    - intros (note & Hnote & ->). exists (noteToMidi note). split; [reflexivity|].
      apply (Permutation_in _ (Permutation_sym (midiNotes_of_perm notes))).
      by apply in_map. }
  assert (Hrange : Forall (fun pc => -1 <= pc <= 11) (noteClasses_of notes)).
  { apply List.Forall_forall. intros pc Hpc. apply Hmem in Hpc as (note & _ & ->).
    destruct (noteToMidi_range note) as [[_ ->] | [_ H]]; [vm_compute; split; discriminate|].
    pose proof (Z.rem_bound_pos (noteToMidi note) 12 ltac:(lia) ltac:(lia)). lia. }
  assert (Hcount : (length (noteClasses_of notes) <= 13)%nat).
  { assert (Hincl : incl (noteClasses_of notes) (map (fun k => Z.of_nat k - 1) (seq 0 13))).
    { intros pc Hpc. rewrite List.Forall_forall in Hrange. apply Hrange in Hpc.
      apply in_map_iff. exists (Z.to_nat (pc + 1)). split; [lia|].
      apply in_seq. lia. }
    apply NoDup_ListNoDup in Hnd.
    pose proof (NoDup_incl_length Hnd Hincl) as Hle.
    by rewrite length_map, length_seq in Hle. }
  split; [exact Hnd|]. split; [exact Hmem|]. split; [exact Hrange|].
  split; [|split; [exact Hcount|]].
  - intros Hshape. apply List.Forall_forall. intros pc Hpc.
    apply Hmem in Hpc as (note & Hnote & ->).
    rewrite List.Forall_forall in Hshape. specialize (Hshape note Hnote).
    destruct (noteToMidi_range note) as [[Hnone _] | [_ H]].
    + destruct note as [|l [|c [|d [|? ?]]]]; destruct Hshape as (l' & d' & Hl & Hd & [E | E]);
        try discriminate; injection E as -> ->; try subst; simpl in Hnone;
        rewrite ?Hl, ?Hd in Hnone; discriminate.
    + pose proof (Z.rem_bound_pos (noteToMidi note) 12 ltac:(lia) ltac:(lia)).
      unfold is_pitch_class. lia.
  - intros Hlt. rewrite permutations_length. apply fact_le. lia.
Qed.

(** ** Doubling a note in a higher octave *)

Lemma ascending_snoc (l : list Z) (x : Z) :
  StronglySorted (fun a b => a - b <= 0) l ->
  (forall y, In y l -> y <= x) ->
  StronglySorted (fun a b => a - b <= 0) (l ++ [x]).
Proof.
  induction 1 as [|a l Hs IH Hall]; intros Hle; simpl.
  - repeat constructor.
  - constructor; [apply IH; intros y Hy; apply Hle; by right|].
    apply Forall_app. split; [exact Hall|].
    constructor; [|constructor]. specialize (Hle a (or_introl eq_refl)). lia.
Qed.

Lemma midiNotes_of_cons_high (notes : list string) (extra : string) :
  (forall note, In note notes -> noteToMidi note <= noteToMidi extra) ->
  midiNotes_of (extra :: notes) = midiNotes_of notes ++ [noteToMidi extra].
Proof.
  intros Hhigh. apply ascending_unique.
  - apply array_sort_ascending.
  - apply ascending_snoc; [apply array_sort_ascending|].
    intros y Hy. apply (Permutation_in _ (midiNotes_of_perm notes)), in_map_iff in Hy
      as (note & <- & Hnote).
    by apply Hhigh.
  - rewrite midiNotes_of_perm. simpl map.
    rewrite <- Permutation_cons_append. apply perm_skip.
    symmetry. apply midiNotes_of_perm.
Qed.

(** X10. With three or more notes sounding, adding a note that is not below
    any of them and whose pitch class is already present (an octave
    doubling above) does not change the result of [detectChord]. *)
Theorem detectChord_octave_doubling (notes : list string) (extra : string)
    (opts : option DetectOptions) :
  (3 <= length notes)%nat ->
  (forall note, In note notes -> noteToMidi note <= noteToMidi extra) ->
  (exists note, In note notes
                /\ Z.rem (noteToMidi note) 12 = Z.rem (noteToMidi extra) 12) ->
  detectChord (extra :: notes) opts = detectChord notes opts.
Proof.
  intros Hlen Hhigh (note & Hnote & Hclass).
  unfold detectChord, detectChordWith.
  change (array_sort (fun a b => a - b) (map noteToMidi (extra :: notes)))
    with (midiNotes_of (extra :: notes)).
  change (array_sort (fun a b => a - b) (map noteToMidi notes)) with (midiNotes_of notes).
  rewrite (midiNotes_of_cons_high notes extra Hhigh).
  assert (Hin : In (Z.rem (noteToMidi extra) 12)
                   (map (fun n => Z.rem n 12) (midiNotes_of notes))).
  { rewrite <- Hclass. apply in_map_iff. exists (noteToMidi note). split; [reflexivity|].
    apply (Permutation_in _ (Permutation_sym (midiNotes_of_perm notes))).
    by apply in_map. }
  pose proof (midiNotes_of_length notes) as Hml.
  destruct notes as [|n0 notes0]; [simpl in Hlen; lia|].
  cbn [length Nat.eqb].
  destruct (midiNotes_of (n0 :: notes0)) as [|b [|h [|t rest]]];
    try (simpl in Hml, Hlen; lia).
  cbn [app]. cbv iota.
  change (b :: h :: t :: rest ++ [noteToMidi extra])
    with ((b :: h :: t :: rest) ++ [noteToMidi extra]).
  rewrite map_app.
  change (map (fun n => Z.rem n 12) [noteToMidi extra]) with [Z.rem (noteToMidi extra) 12].
  by rewrite (set_values_snoc _ _ Hin).
Qed.

Lemma detectChord_octave_doubling_witness :
  detectChord ("C5" :: ["C4"; "E4"; "G4"]) None = detectChord ["C4"; "E4"; "G4"] None.
Proof.
  apply detectChord_octave_doubling.
  - simpl. lia.
  - intros note [<- | [<- | [<- | []]]]; vm_compute; discriminate.
  - exists "C4". split; [by left|reflexivity].
Defined.

(** ** Two notes *)

(** X11. Two notes are always described by a catalogued interval name (the
    substitute "Interval" is never shown): the name of the distance between
    the two parsed pitches, followed by the lower and then the higher note,
    whatever the order of the two identifiers. *)
Theorem detectChord_two_notes (note1 note2 : string) (opts : option DetectOptions) :
  let midi1 := noteToMidi note1 in
  let midi2 := noteToMidi note2 in
  exists interval,
    getIntervalName (midi2 - midi1) = Some interval
    /\ In interval interval_names /\ interval <> "Interval"
    /\ detectChord [note1; note2] opts
       = Ok (Some (interval ++ " ("
                     ++ midiToNoteName (Z.min midi1 midi2) (useSharps_of opts) ++ ", "
                     ++ midiToNoteName (Z.max midi1 midi2) (useSharps_of opts)
                     ++ ")")%string).
Proof.
  intros midi1 midi2.
  destruct (getIntervalName_defined (midi2 - midi1)) as (interval & Hint & Hne).
  exists interval. split; [exact Hint|].
  split; [pose proof (getIntervalName_In (midi2 - midi1)) as H; by rewrite Hint in H|].
  split; [exact Hne|].
  unfold detectChord, detectChordWith. cbn [length Nat.eqb map array_sort sort_insert].
  fold midi1 midi2.
  destruct (Z.leb_spec (midi1 - midi2) 0) as [Hle|Hgt]; cbv iota beta zeta.
  - rewrite Hint, Z.min_l, Z.max_r by lia. reflexivity.
  - replace (midi1 - midi2) with (- (midi2 - midi1)) by lia.
    rewrite getIntervalName_opp, Hint, Z.min_r, Z.max_l by lia. reflexivity.
Qed.

(** ** Chord definitions *)

Lemma split_from_nonempty (sep : ascii) (s : string) : forall cur,
  split_from sep cur s <> [].
Proof.
  induction s as [|c rest IH]; intros cur; simpl; [discriminate|].
  destruct (Ascii.eqb c sep); [discriminate|apply IH].
Qed.

(** X12. [defineChord] never throws, whatever the name and the note list
    (unknown spellings included): it appends exactly one template, whose
    pattern is the sort key of the canonical stacking of the listed notes
    and whose [rootIndex] is a valid position of that stacking, the one
    holding the first listed note.  So the root of a template is always
    defined. *)
Theorem defineChord_rootIndex (chordName noteStr : string) (formulas : list ChordFormula) :
  let notes :=
    map (fun n => indexOf String.eqb (normalize_name n) SHARP_NOTES) (split "," noteStr) in
  exists stacked formula root,
    getAsStackedChord notes = Ok stacked
    /\ Permutation notes stacked
    /\ defineChord chordName noteStr formulas = Ok (formulas ++ [formula])
    /\ name formula = chordName
    /\ pattern formula = patternKey stacked
    /\ head notes = Some root
    /\ 0 <= rootIndex formula < Z.of_nat (length stacked)
    /\ js_index stacked (rootIndex formula) = Some root.
Proof.
  intros notes.
  destruct (getAsStackedChord_total notes) as (stacked & Hres & Hperm).
  destruct notes as [|root others] eqn:Hnotes.
  { unfold notes in Hnotes. apply map_eq_nil in Hnotes.
    by apply split_from_nonempty in Hnotes. }
  destruct (indexOf_from_found Z.eqb root stacked 0 ltac:(lia)) as (y & Hlook & Hy & Hrange).
  { exists root. split; [apply (Permutation_in _ Hperm); by left|apply Z.eqb_refl]. }
  apply Z.eqb_eq in Hy as ->. rewrite Z.sub_0_r in Hlook.
  fold (indexOf Z.eqb root stacked) in Hlook, Hrange.
  exists stacked, {| name := chordName; pattern := patternKey stacked;
                     rootIndex := indexOf Z.eqb root stacked |}, root.
  split; [exact Hres|]. split; [exact Hperm|]. split.
  { unfold defineChord. fold notes. rewrite Hnotes, Hres. reflexivity. }
  split; [reflexivity|]. split; [reflexivity|]. split; [reflexivity|].
  cbn [rootIndex]. split; [lia|].
  unfold js_index. by replace (indexOf Z.eqb root stacked <? 0) with false
    by (symmetry; apply Z.ltb_ge; lia).
Qed.

(** X13. The chain of replacements of [defineChord] sends every spelling
    made of a letter (either case) and at most one sharp or flat sign to
    the sharp name of its pitch class: its position in [SHARP_NOTES] is the
    pitch of the letter moved by the accidental, modulo 12 (so Cb is B and
    B# is C). *)
Theorem normalize_name_pitch (spelling : string) (pitchClass : Z) :
  spelled_pitch spelling = Some pitchClass ->
  indexOf String.eqb (normalize_name spelling) SHARP_NOTES = pitchClass
  /\ 0 <= pitchClass <= 11.
Proof.
  destruct spelling as [|letter accidental]; [discriminate|].
  unfold spelled_pitch.
  destruct (natural_pitch letter) as [p|] eqn:Hp; [|discriminate].
  destruct (accidental_shift accidental) as [a|] eqn:Ha; [|discriminate].
  intros [= <-].
  assert (Hacc : In accidental [""; "#"; "b"; "B"]).
  { destruct accidental as [|c [|? ?]]; [by left| |discriminate].
    destruct c as [[] [] [] [] [] [] [] []]; try discriminate Ha; simpl; tauto. }
  assert (Hlet : In letter (list_ascii_of_string "CDEFGABcdefgab")).
  { destruct letter as [[] [] [] [] [] [] [] []]; try discriminate Hp; simpl; tauto. }
  simpl in Hacc, Hlet.
  repeat (destruct Hacc as [<- | Hacc]); try destruct Hacc;
    repeat (destruct Hlet as [<- | Hlet]); try destruct Hlet;
    vm_compute in Hp, Ha; injection Hp as <-; injection Ha as <-;
    vm_compute; (split; [reflexivity|split; discriminate]).
Qed.

Lemma normalize_name_pitch_witness :
  indexOf String.eqb (normalize_name "eb") SHARP_NOTES = 3 /\ 0 <= 3 <= 11.
Proof. apply (normalize_name_pitch "eb" 3). reflexivity. Defined.

(** * Properties of the keyboard hook *)

(** ** Note names and MIDI numbers *)

Lemma nameToMidi_noteToMidi (note : string) : nameToMidi note = noteToMidi note.
Proof. reflexivity. Qed.

Lemma string_of_uint_no_sharp (d : Decimal.uint) :
  has_char "#" (NilEmpty.string_of_uint d) = false.
Proof. induction d; simpl; auto. Qed.

Lemma string_of_Z_no_sharp (z : Z) : has_char "#" (string_of_Z z) = false.
Proof.
  unfold string_of_Z, NilZero.string_of_int, NilZero.string_of_uint.
  destruct (Z.to_int z) as [d|d]; destruct d; simpl; try reflexivity;
    apply string_of_uint_no_sharp.
Qed.

Lemma string_of_Z_digit (d : ascii) :
  is_digit d = true ->
  string_of_Z (digit_value d) = String d EmptyString /\ 0 <= digit_value d <= 9.
Proof.
  destruct d as [[] [] [] [] [] [] [] []]; intros Hd; try discriminate Hd;
    vm_compute; (split; [reflexivity|split; discriminate]).
Qed.

(** A name of the table followed by a text without [#] parses only when
    the text is one digit. *)
Lemma note_match_name_suffix (name suffix : string) (groups : string * string) :
  In name NOTE_NAMES -> has_char "#" suffix = false ->
  note_match (name ++ suffix) = Some groups ->
  exists d, is_digit d = true /\ suffix = String d EmptyString.
Proof.
  intros Hname Hsharp Hm. simpl in Hname.
  assert (Hshape : exists l, name = String l EmptyString
                             \/ name = String l (String "#" EmptyString)).
  { repeat (destruct Hname as [<- | Hname]); try destruct Hname; eexists; eauto. }
  destruct Hshape as (l & [-> | ->]); rewrite !string_app_cons in Hm;
    change ("" ++ suffix)%string with suffix in Hm.
  - destruct suffix as [|c1 [|c2 [|? ?]]]; try discriminate Hm; simpl in Hm.
    + destruct (is_note_letter l), (is_digit c1) eqn:Hd; try discriminate Hm. by exists c1.
    + simpl in Hsharp. apply orb_false_iff in Hsharp as [Hc1 _].
      unfold is_sharp in Hm. rewrite Hc1, andb_false_r in Hm. discriminate Hm.
  - destruct suffix as [|c1 [|? ?]]; try discriminate Hm; simpl in Hm.
    + destruct (is_note_letter l); discriminate Hm.
    + destruct (is_note_letter l), (is_digit c1) eqn:Hd; try discriminate Hm. by exists c1.
Qed.

Lemma midiToName_name_In (midi : Z) :
  In (nth (Z.to_nat (Z.rem (Z.rem midi 12 + 12) 12)) NOTE_NAMES "undefined") NOTE_NAMES.
Proof.
  apply nth_In. rewrite note_index_mod.
  pose proof (Z.mod_pos_bound midi 12 ltac:(lia)). simpl length. lia.
Qed.

Lemma midiToName_parsed (midi : Z) :
  12 <= midi <= 131 -> nameToMidi (midiToName midi) = midi.
Proof.
  intros Hrange.
  assert (Hall : forallb (fun k => nameToMidi (midiToName (Z.of_nat k)) =? Z.of_nat k)
                         (seq 12 120) = true) by (vm_compute; reflexivity).
  rewrite forallb_forall in Hall.
  specialize (Hall (Z.to_nat midi)). rewrite Z2Nat.id in Hall by lia.
  apply Z.eqb_eq, Hall, in_seq. lia.
Qed.

Lemma midiToName_unparsed (midi : Z) :
  ~ 12 <= midi <= 131 -> note_match (midiToName midi) = None.
Proof.
  intros Hout. destruct (note_match (midiToName midi)) as [groups|] eqn:Hm; [|reflexivity].
  exfalso. apply Hout.
  destruct (note_match_name_suffix _ _ groups (midiToName_name_In midi)
              (string_of_Z_no_sharp (midi / 12 - 1)) Hm) as (d & Hd & Hs).
  destruct (string_of_Z_digit d Hd) as [Hdv Hdr]. rewrite <- Hdv in Hs.
  apply string_of_Z_inj in Hs.
  pose proof (Z.div_mod midi 12 ltac:(lia)) as Hdm.
  pose proof (Z.mod_pos_bound midi 12 ltac:(lia)) as Hmb. lia.
Qed.

(** X14. The names the hook produces for MIDI numbers are read back exactly
    when the number lies in the octaves 0 to 9 (12 to 131); any other
    number gives a name that neither the hook nor the chord detector can
    parse, and both read it as [-1]. *)
Theorem nameToMidi_midiToName (midi : Z) :
  nameToMidi (midiToName midi) = (if (12 <=? midi) && (midi <=? 131) then midi else -1)
  /\ noteToMidi (midiToName midi) = (if (12 <=? midi) && (midi <=? 131) then midi else -1).
Proof.
  change (noteToMidi (midiToName midi)) with (nameToMidi (midiToName midi)).
  enough (nameToMidi (midiToName midi)
          = if (12 <=? midi) && (midi <=? 131) then midi else -1) by (by split).
  destruct (Z.leb_spec 12 midi) as [Hlo|Hlo]; [destruct (Z.leb_spec midi 131) as [Hhi|Hhi]|];
    cbn [andb].
  - by apply midiToName_parsed.
  - unfold nameToMidi. by rewrite midiToName_unparsed by lia.
  - unfold nameToMidi. by rewrite midiToName_unparsed by lia.
Qed.

Lemma detectChord_single (note : string) (opts : option DetectOptions) :
  detectChord [note] opts = Ok (Some (midiToNoteName (noteToMidi note) (useSharps_of opts))).
Proof. reflexivity. Qed.

(** X15. Transposing a note of the octaves 0 to 9 moves its MIDI number by
    the given number of semitones; as long as the result stays in those
    octaves it is read back by the detector and transposing back restores
    the note, and once it leaves them the detector reads [-1] and shows the
    single note as "B". *)
Theorem transposeNote_midi (midi semis : Z) (opts : option DetectOptions) :
  12 <= midi <= 131 ->
  let effective := transposeNote (midiToName midi) semis in
  effective = midiToName (midi + semis)
  /\ (12 <= midi + semis <= 131 ->
      noteToMidi effective = midi + semis
      /\ transposeNote effective (- semis) = midiToName midi)
  /\ (~ 12 <= midi + semis <= 131 ->
      noteToMidi effective = -1
      /\ detectChord [effective] opts = Ok (Some "B")).
Proof.
  intros Hrange effective.
  assert (Heff : effective = midiToName (midi + semis)).
  { unfold effective, transposeNote. by rewrite midiToName_parsed. }
  split; [exact Heff|]. rewrite Heff. split.
  - intros Hin. rewrite <- nameToMidi_noteToMidi, midiToName_parsed by exact Hin.
    split; [reflexivity|]. unfold transposeNote. rewrite midiToName_parsed by exact Hin.
    f_equal. lia.
  - intros Hout.
    assert (Hbad : noteToMidi (midiToName (midi + semis)) = -1)
      by (unfold noteToMidi; by rewrite midiToName_unparsed).
    split; [exact Hbad|]. rewrite detectChord_single, Hbad.
    by destruct (useSharps_of opts).
Qed.

Lemma transposeNote_midi_witness :
  let effective := transposeNote (midiToName 60) 7 in
  effective = midiToName (60 + 7)
  /\ (12 <= 60 + 7 <= 131 ->
      noteToMidi effective = 60 + 7
      /\ transposeNote effective (- 7) = midiToName 60)
  /\ (~ 12 <= 60 + 7 <= 131 ->
      noteToMidi effective = -1
      /\ detectChord [effective] None = Ok (Some "B")).
Proof. apply (transposeNote_midi 60 7 None). lia. Defined.

(** X16. A MIDI note number outside 12..131 (the twelve lowest MIDI keys
    among them) gets a name the hook cannot read back, so the transposed
    note no longer depends on the key: it is the name of [semis - 1], which
    is "B-2" when no transposition is set. *)
Theorem transposeNote_unparsed (noteNum semis : Z) :
  ~ 12 <= noteNum <= 131 ->
  transposeNote (midiToName noteNum) semis = midiToName (semis - 1)
  /\ transposeNote (midiToName noteNum) 0 = "B-2".
Proof.
  intros Hout.
  assert (Hbad : nameToMidi (midiToName noteNum) = -1)
    by (unfold nameToMidi; by rewrite midiToName_unparsed).
  unfold transposeNote. rewrite Hbad. split; [f_equal; lia|reflexivity].
Qed.

Lemma transposeNote_unparsed_witness :
  transposeNote (midiToName 5) 3 = midiToName (3 - 1)
  /\ transposeNote (midiToName 5) 0 = "B-2".
Proof. apply (transposeNote_unparsed 5 3). lia. Defined.

(** ** Velocity steps *)

(** X17. The velocity keys always select one of the seven steps.  From a
    step they move to the neighbouring step and stop at the ends, and the
    two keys undo each other away from the ends; from a value that is not a
    step the lower key jumps to the lowest step and the upper key to the
    highest. *)
Theorem velocity_steps (v : Z) :
  exists down up,
    velocityStepDown v = Some down /\ velocityStepUp v = Some up
    /\ In down VELOCITY_STEPS /\ In up VELOCITY_STEPS
    /\ (In v VELOCITY_STEPS ->
        down <= v <= up
        /\ (forall s, In s VELOCITY_STEPS -> s < v -> s <= down)
        /\ (forall s, In s VELOCITY_STEPS -> v < s -> up <= s)
        /\ (v <> 1 -> down < v /\ velocityStepUp down = Some v)
        /\ (v <> 127 -> v < up /\ velocityStepDown up = Some v))
    /\ (~ In v VELOCITY_STEPS -> down = 1 /\ up = 127).
Proof.
  destruct (in_dec Z.eq_dec v VELOCITY_STEPS) as [Hin | Hout].
  - simpl in Hin.
    repeat (destruct Hin as [<- | Hin]); try destruct Hin;
      (eexists; eexists; split; [vm_compute; reflexivity|];
       split; [vm_compute; reflexivity|];
       split; [simpl; tauto|]; split; [simpl; tauto|];
       split; [|intros Hno; exfalso; apply Hno; simpl; tauto];
       intros _; split; [lia|];
       split; [intros s Hs; simpl in Hs; intuition lia|];
       split; [intros s Hs; simpl in Hs; intuition lia|];
       split; intros Hne; try (exfalso; apply Hne; reflexivity);
       (split; [lia|vm_compute; reflexivity])).
  - assert (Hidx : findIndex (fun s => s =? v) VELOCITY_STEPS = -1).
    { unfold findIndex, VELOCITY_STEPS. simpl in Hout. cbn [findIndex_from].
      repeat match goal with
             | |- context [?a =? v] =>
                 destruct (Z.eqb_spec a v) as [E|_]; [exfalso; apply Hout; tauto|]
             end.
      reflexivity. }
    exists 1, 127. unfold velocityStepDown, velocityStepUp. rewrite Hidx.
    split; [reflexivity|]. split; [reflexivity|].
    split; [simpl; tauto|]. split; [simpl; tauto|].
    split; [intros Hin; contradiction|by intros _].
Qed.

(** X18. The velocity restored from storage is always one of the seven
    steps, none of the steps is nearer to the stored value clamped to
    [[1,127]], and of two nearest steps the lower one is taken; a stored
    step is restored unchanged. *)
Theorem snapVelocity_nearest (num : Z) :
  let clamped := Z.max 1 (Z.min 127 num) in
  exists nearest,
    snapVelocity num = Some nearest
    /\ In nearest VELOCITY_STEPS
    /\ (forall s, In s VELOCITY_STEPS ->
        Z.abs (nearest - clamped) <= Z.abs (s - clamped)
        /\ (Z.abs (s - clamped) = Z.abs (nearest - clamped) -> nearest <= s))
    /\ (In num VELOCITY_STEPS -> nearest = num).
Proof.
  intros clamped.
  pose (ok := fun c : Z =>
    match snapVelocity c with
    | Some nearest =>
        existsb (Z.eqb nearest) VELOCITY_STEPS
        && forallb (fun s => (Z.abs (nearest - c) <=? Z.abs (s - c))
                             && ((negb (Z.abs (s - c) =? Z.abs (nearest - c)))
                                 || (nearest <=? s)))
                   VELOCITY_STEPS
        && ((negb (existsb (Z.eqb c) VELOCITY_STEPS)) || (nearest =? c))
    | None => false
    end).
  assert (Hall : forallb (fun k => ok (Z.of_nat k)) (seq 1 127) = true)
    by (vm_compute; reflexivity).
  rewrite forallb_forall in Hall.
  assert (Hc : 1 <= clamped <= 127) by (unfold clamped; lia).
  specialize (Hall (Z.to_nat clamped)). rewrite Z2Nat.id in Hall by lia.
  specialize (Hall ltac:(apply in_seq; lia)). unfold ok in Hall.
  assert (Hsame : snapVelocity num = snapVelocity clamped).
  { unfold snapVelocity. fold clamped.
    by replace (Z.max 1 (Z.min 127 clamped)) with clamped by lia. }
  rewrite <- Hsame in Hall.
  destruct (snapVelocity num) as [nearest|]; [|discriminate].
  apply andb_true_iff in Hall as [Hall Hfix]. apply andb_true_iff in Hall as [Hmem Hnear].
  exists nearest. split; [reflexivity|].
  split.
  { apply existsb_exists in Hmem as (s & Hs & E). apply Z.eqb_eq in E. by subst. }
  split.
  - intros s Hs. rewrite forallb_forall in Hnear. specialize (Hnear s Hs).
    apply andb_true_iff in Hnear as [H1 H2]. apply Z.leb_le in H1.
    split; [exact H1|]. intros Heq.
    apply orb_true_iff in H2 as [H2 | H2]; [|by apply Z.leb_le].
    apply negb_true_iff, Z.eqb_neq in H2. contradiction.
  - intros Hnum.
    assert (clamped = num) as Hcn.
    { unfold clamped. simpl in Hnum. intuition lia. }
    rewrite Hcn in Hfix. apply orb_true_iff in Hfix as [Hfix | Hfix].
    + apply negb_true_iff in Hfix.
      assert (existsb (Z.eqb num) VELOCITY_STEPS = true); [|congruence].
      apply existsb_exists. exists num. split; [exact Hnum|apply Z.eqb_refl].
    + by apply Z.eqb_eq.
Qed.

(** ** Sounding notes and the sustain pedal *)

Lemma sustain_inv_initial : sustain_inv initialKeyboardState.
Proof. unfold sustain_inv, initialKeyboardState. simpl. set_solver. Qed.

Lemma sustain_inv_step (st : KeyboardState) (ev : KeyboardEvent) :
  sustain_inv st -> sustain_inv (handleEvent st ev).
Proof.
  unfold sustain_inv. destruct st as [active sustained held down]. cbn.
  intros (Hheld & Hactive & Hup).
  destruct ev as [semis samplerLoaded note applyTranspose|semis note applyTranspose| |];
    cbn [handleEvent].
  - unfold internalPlay. destruct samplerLoaded; cbn; [|by auto].
    split; [set_solver|]. split; [set_solver|exact Hup].
  - unfold internalStop.
    set (effective := if applyTranspose then transposeNote note semis else note).
    clearbody effective. cbn. destruct down eqn:Hdown; cbn.
    + split; [set_solver|]. split; [|discriminate].
      intros x Hx. destruct (decide (x = effective)); set_solver.
    + specialize (Hup eq_refl). subst sustained.
      rewrite bool_decide_eq_false_2 by set_solver. cbn.
      split; [set_solver|]. split; [|by intros _].
      intros x Hx. destruct (decide (x = effective)); set_solver.
  - unfold sustainPedalDown. cbn.
    split; [set_solver|split; [set_solver|discriminate]].
  - unfold sustainPedalUp. cbn. split; [set_solver|]. split; [|done].
    intros x Hx. destruct (decide (x ∈ held)); set_solver.
Qed.

Lemma sustain_inv_events (events : list KeyboardEvent) : sustain_inv (handleEvents events).
Proof.
  unfold handleEvents.
  induction events as [|ev events IH] using rev_ind; [apply sustain_inv_initial|].
  rewrite fold_left_app. cbn [fold_left]. by apply sustain_inv_step.
Qed.

(** X19. After any sequence of key, mouse, MIDI and pedal events the notes
    that sound are the held notes together with some of the sustained
    ones.  With the pedal up nothing is sustained, so exactly the held
    notes sound (and are handed to [detectChord]), and stopping a note then
    always removes it: the early return for a latched note is never
    taken. *)
Theorem sustain_bookkeeping (events : list KeyboardEvent) :
  let st := handleEvents events in
  currentlyHeldEffective st ⊆ activeNotes st
  /\ activeNotes st ⊆ currentlyHeldEffective st ∪ sustainedNotes st
  /\ (sustainDown st = false ->
      sustainedNotes st = ∅
      /\ activeNotes st = currentlyHeldEffective st
      /\ forall (semis : Z) (note : string) (applyTranspose : bool),
           let effective := if applyTranspose then transposeNote note semis else note in
           activeNotes (internalStop semis note applyTranspose st)
           = activeNotes st ∖ {[ effective ]}).
Proof.
  intros st. destruct (sustain_inv_events events) as (Hheld & Hactive & Hup).
  fold st in Hheld, Hactive, Hup. clearbody st.
  destruct st as [active sustained held down]. cbn in *.
  split; [exact Hheld|]. split; [exact Hactive|].
  intros ->. specialize (Hup eq_refl). subst sustained.
  split; [reflexivity|]. split; [set_solver|].
  intros semis note applyTranspose. unfold internalStop. cbn.
  rewrite bool_decide_eq_false_2 by set_solver. reflexivity.
Qed.

(** X20. The pedal holds what is released under it: a note played and then
    released while the pedal is down keeps sounding, and lifting the pedal
    silences every note that is not held at that moment. *)
Theorem sustain_pedal_release (events : list KeyboardEvent) (semis : Z) (note : string)
    (applyTranspose : bool) :
  let st := handleEvents events in
  let effective := if applyTranspose then transposeNote note semis else note in
  sustainDown st = true ->
  effective ∈ activeNotes st ->
  let released := internalStop semis note applyTranspose st in
  effective ∈ activeNotes released
  /\ effective ∉ currentlyHeldEffective released
  /\ activeNotes (sustainPedalUp released) = currentlyHeldEffective released
  /\ effective ∉ activeNotes (sustainPedalUp released).
Proof.
  intros st effective Hdown Hin released.
  destruct (sustain_inv_events events) as (Hheld & Hactive & _).
  fold st in Hheld, Hactive.
  unfold released, internalStop, sustainPedalUp. fold effective.
  clearbody effective st. destruct st as [active sustained held down]. cbn in *.
  subst down. cbn.
  split; [exact Hin|]. split; [set_solver|]. split.
  - apply set_eq. intros x.
    destruct (decide (x = effective)), (decide (x ∈ held)); set_solver.
  - set_solver.
Qed.

Lemma sustain_pedal_release_witness :
  let st := handleEvents [PedalDown; PlayNote 0 true "C4" true] in
  let effective := transposeNote "C4" 0 in
  let released := internalStop 0 "C4" true st in
  effective ∈ activeNotes released
  /\ effective ∉ currentlyHeldEffective released
  /\ activeNotes (sustainPedalUp released) = currentlyHeldEffective released
  /\ effective ∉ activeNotes (sustainPedalUp released).
Proof.
  apply (sustain_pedal_release [PedalDown; PlayNote 0 true "C4" true] 0 "C4" true).
  - reflexivity.
  - cbn -[transposeNote]. set_solver.
Defined.

(** * The hook and the detector together *)

(** X21. Every chord definition except "5", "m13" and "7(b9)(#11)", played
    in octave 4 and moved by the transposition of the hook into any of the
    twelve keys, is named by the transposed root followed by its display
    name. *)
Theorem template_roundtrip_transposed (semis : Z) (def : string * string) :
  0 <= semis < 12 ->
  In def top_level_definitions ->
  ~ In (fst def) roundtrip_exceptions ->
  detectChord (transposedNotes semis (snd def)) None
  = Ok (Some (midiToNoteName semis true ++ fst def)%string).
Proof.
  intros Hsemis Hdef Hexc.
  assert (Hall : forallb (fun k => forallb (transposed_check (Z.of_nat k))
                                           top_level_definitions)
                         (seq 0 12) = true) by (vm_compute; reflexivity).
  rewrite forallb_forall in Hall. specialize (Hall (Z.to_nat semis)).
  rewrite Z2Nat.id in Hall by lia. specialize (Hall ltac:(apply in_seq; lia)).
  rewrite forallb_forall in Hall. specialize (Hall def Hdef).
  unfold transposed_check in Hall. apply orb_true_iff in Hall as [Hex|Hok].
  - exfalso. apply Hexc. apply existsb_exists in Hex as (s & Hs & Heq).
    apply String.eqb_eq in Heq. by subst.
  - by apply result_is_true.
Qed.

Lemma template_roundtrip_transposed_witness :
  detectChord (transposedNotes 7 (snd ("m7", "c,eb,g,bb"))) None
  = Ok (Some (midiToNoteName 7 true ++ fst ("m7", "c,eb,g,bb"))%string).
Proof.
  apply template_roundtrip_transposed.
  - lia.
  - simpl. tauto.
  - simpl. intros [H | [H | [H | []]]]; discriminate H.
Defined.

(** X22. The interval pattern of the stacking the resolver returns depends
    only on the set of pitch classes: passing the same values in another
    order may change the ordering returned, but not its pattern, its energy
    or the template that is looked up. *)
Theorem getAsStackedChord_pattern_order_independent (noteClasses noteClasses' : list Z) :
  Permutation noteClasses noteClasses' ->
  exists stacked stacked',
    getAsStackedChord noteClasses = Ok stacked
    /\ getAsStackedChord noteClasses' = Ok stacked'
    /\ Permutation stacked stacked'
    /\ getIntervalPattern stacked' = getIntervalPattern stacked
    /\ energy stacked' = energy stacked
    /\ patternKey stacked' = patternKey stacked.
Proof.
  intros Hperm.
  assert (Hgoal : exists stacked stacked',
    getAsStackedChord noteClasses = Ok stacked
    /\ getAsStackedChord noteClasses' = Ok stacked'
    /\ Permutation stacked stacked'
    /\ patternKey stacked' = patternKey stacked).
  { destruct (Nat.le_gt_cases (length noteClasses) 1) as [Hle|Hgt].
    - assert (noteClasses' = noteClasses) as ->.
      { destruct noteClasses as [|a [|b rest]]; [| |simpl in Hle; lia].
        + by apply Permutation_nil in Hperm.
        + by apply Permutation_length_1_inv in Hperm. }
      exists noteClasses, noteClasses. unfold getAsStackedChord.
      by replace (length noteClasses <=? 1)%nat with true
        by (symmetry; apply Nat.leb_le; lia).
    - destruct (getAsStackedChord_spec noteClasses) as (s & Hs & Hps & Hmins); [lia|].
      destruct (getAsStackedChord_spec noteClasses') as (s' & Hs' & Hps' & Hmins');
        [rewrite <- (Permutation_length Hperm); lia|].
      exists s, s'. split; [exact Hs|]. split; [exact Hs'|].
      assert (Hss : Permutation s s') by (by rewrite <- Hps, <- Hps').
      split; [exact Hss|].
      destruct (Hmins s') as [Hle1 Htie1]; [by rewrite Hperm|].
      destruct (Hmins' s) as [Hle2 Htie2]; [by rewrite <- Hperm|].
      apply String.leb_antisym; [apply Htie2; lia|apply Htie1; lia]. }
  destruct Hgoal as (stacked & stacked' & H1 & H2 & Hss & Hkey).
  exists stacked, stacked'. split; [exact H1|]. split; [exact H2|].
  split; [exact Hss|].
  apply patternKey_inj in Hkey as Hpat. split; [exact Hpat|].
  split; [unfold energy; by rewrite Hpat|exact Hkey].
Qed.

Lemma getAsStackedChord_pattern_order_independent_witness :
  exists stacked stacked',
    getAsStackedChord [0; 4; 8] = Ok stacked
    /\ getAsStackedChord ([4; 8] ++ [0]) = Ok stacked'
    /\ Permutation stacked stacked'
    /\ getIntervalPattern stacked' = getIntervalPattern stacked
    /\ energy stacked' = energy stacked
    /\ patternKey stacked' = patternKey stacked.
Proof.
  apply getAsStackedChord_pattern_order_independent.
  apply (Permutation_cons_append [4; 8] 0).
Defined.
